(** * Per-resource lock manager of the KPI dashboard backend

    Shallow embedding of [backend/utils/concurrency.js]: the [LockManager]
    class (lock table, [acquireLock], [releaseLock], [isLocked],
    [cleanupStaleLocks]) and the Express adapter [concurrencyMiddleware].

    Conventions.
    - [Date.now()] is an integer number of milliseconds: [Z].
    - [this.locks] is a JavaScript [Map] from strings to lock records: a
      [gmap string LockEntry].  ([this.waitingOperations] is created by the
      constructor and never read or written; it is left out.)
    - JavaScript runs every stretch of code between two [await]s to
      completion.  [acquireLock] suspends only at
      [await new Promise(resolve => setTimeout(resolve, 100))], so one
      evaluation of the loop condition together with either the timeout test
      or the insertion after the loop is one indivisible step,
      [acquire_check]. *)

From Stdlib Require Import ZArith String Ascii List Lia.
From stdpp Require Import gmap strings list fin_maps sorting.

Local Open Scope Z_scope.

(** ** Data model *)

(** The object literal stored by [this.locks.set(lockKey, {...})]. *)
Record LockEntry := mkLockEntry {
  timestamp : Z;
  resourceType : string;
  resourceId : string
}.

(** [new Error(message)]. *)
Record Error := mkError { message : string }.

(** How a call ends: [return a] or [throw e]. *)
Inductive Outcome (A : Type) :=
| Returned (a : A)
| Thrown (e : Error).
Arguments Returned {A} a.
Arguments Thrown {A} e.

(** The wall clock and the lock table of the singleton [lockManager]. *)
Record State := mkState {
  now : Z;
  locks : gmap string LockEntry
}.

(** [Map.prototype.has]. *)
Definition has (key : string) (m : gmap string LockEntry) : bool :=
  match m !! key with Some _ => true | None => false end.

(** ** LockManager *)

(** [_getLockKey(resourceType, resourceId)]: the template literal
    [`${resourceType}:${resourceId}`]. *)
Definition _getLockKey (resourceType resourceId : string) : string :=
  resourceType +:+ ":" +:+ resourceId.

Definition timeout_message : string := "Lock acquisition timeout".

(** What one resumption of [acquireLock] does before it suspends again or
    settles. *)
Inductive Poll :=
| Sleep (ms : Z)        (* await new Promise(resolve => setTimeout(resolve, ms)) *)
| Return (b : bool)
| Throw (e : Error).

(** One pass over lines 140-155 of the source, started at the loop
    condition at time [t]: while the key is present the deadline is tested
    and the call sleeps 100ms; when it is absent the entry is written and
    the call returns [true]. *)
Definition acquire_check (resourceType resourceId : string)
    (startTime maxWaitTime : Z) (t : Z) (m : gmap string LockEntry)
  : gmap string LockEntry * Poll :=
  let lockKey := _getLockKey resourceType resourceId in
  if has lockKey m then
    if t - startTime >? maxWaitTime
    then (m, Throw (mkError timeout_message))
    else (m, Sleep 100)
  else (<[lockKey := mkLockEntry t resourceType resourceId]> m, Return true).

(** [releaseLock(resourceType, resourceId)]. *)
Definition releaseLock (resourceType resourceId : string)
    (m : gmap string LockEntry) : gmap string LockEntry * bool :=
  let lockKey := _getLockKey resourceType resourceId in
  if has lockKey m then (delete lockKey m, true) else (m, false).

(** [isLocked(resourceType, resourceId)]. *)
Definition isLocked (resourceType resourceId : string)
    (m : gmap string LockEntry) : bool :=
  has (_getLockKey resourceType resourceId) m.

(** The staleness threshold written in [cleanupStaleLocks]. *)
Definition maxAge : Z := 30000.

(** The default value of [acquireLock]'s third parameter. *)
Definition defaultMaxWaitTime : Z := 5000.

(** The body of the [for (const [key, lock] of this.locks.entries())] loop. *)
Definition cleanup_visit (t : Z) (key : string) (lock : LockEntry)
    (m : gmap string LockEntry) : gmap string LockEntry :=
  if t - timestamp lock >? maxAge then delete key m else m.

(** [cleanupStaleLocks()], with [t] the value [Date.now()] returned at its
    first line.  The loop visits the entries of the table and deletes from
    the table it iterates over; a [Map] iterator tolerates that, and every
    entry present at the start is visited once. *)
Definition cleanupStaleLocks (t : Z) (m : gmap string LockEntry)
  : gmap string LockEntry :=
  foldr (fun kv acc => cleanup_visit t kv.1 kv.2 acc) m (map_to_list m).

(** ** The event loop seen from one [acquireLock] call

    While a call sleeps, the clock advances and other callbacks run:
    another request releases or takes a lock, or the sweep timer fires. *)
Inductive Event :=
| Tick (d : Z)                       (* the clock advances by [d] ms *)
| Release (rt rid : string)          (* lockManager.releaseLock(rt, rid) *)
| Acquire (rt rid : string)          (* another call finds its key free and takes it *)
| Sweep.                             (* lockManager.cleanupStaleLocks() *)

Definition run_event (e : Event) (s : State) : State :=
  match e with
  | Tick d => mkState (now s + d) (locks s)
  | Release rt rid => mkState (now s) (releaseLock rt rid (locks s)).1
  | Acquire rt rid =>
      mkState (now s) (acquire_check rt rid (now s) 0 (now s) (locks s)).1
  | Sweep => mkState (now s) (cleanupStaleLocks (now s) (locks s))
  end.

Definition run_events (evs : list Event) (s : State) : State :=
  foldl (fun acc e => run_event e acc) s evs.

(** Milliseconds that pass during a list of events. *)
Fixpoint duration (evs : list Event) : Z :=
  match evs with
  | [] => 0
  | Tick d :: rest => d + duration rest
  | _ :: rest => duration rest
  end.

(** The clock does not run backwards. *)
Definition forward (e : Event) : Prop :=
  match e with Tick d => 0 <= d | _ => True end.

(** [setTimeout(resolve, 100)] resumes the call no earlier than 100ms after
    it was armed, and at most [jitter] ms late. *)
Definition timer_fires (jitter : Z) (evs : list Event) : Prop :=
  Forall forward evs /\ 100 <= duration evs <= 100 + jitter.

(** The [while] loop of [acquireLock].  [intervals] lists, for each sleep
    of the call, what happens during it; when the list is used up the call
    is still pending and the result is [None]. *)
Fixpoint acquire_loop (intervals : list (list Event))
    (resourceType resourceId : string) (startTime maxWaitTime : Z) (s : State)
  : State * option (Outcome bool) :=
  match acquire_check resourceType resourceId startTime maxWaitTime
          (now s) (locks s) with
  | (m, Sleep _) =>
      match intervals with
      | [] => (mkState (now s) m, None)
      | evs :: rest =>
          acquire_loop rest resourceType resourceId startTime maxWaitTime
            (run_events evs (mkState (now s) m))
      end
  | (m, Return b) => (mkState (now s) m, Some (Returned b))
  | (m, Throw e) => (mkState (now s) m, Some (Thrown e))
  end.

(** [acquireLock(resourceType, resourceId, maxWaitTime)], called in state
    [s]: [startTime = Date.now()], then the loop. *)
Definition acquireLock (intervals : list (list Event))
    (resourceType resourceId : string) (maxWaitTime : Z) (s : State)
  : State * option (Outcome bool) :=
  acquire_loop intervals resourceType resourceId (now s) maxWaitTime s.

(** ** Several calls in flight

    Each in-flight call is a task; the event loop resumes one task at a
    time, and a resumed task runs one [acquire_check].  A task that has
    acquired releases its own lock when it is done.  The sweep is not part
    of this system: it removes entries whoever holds them (see
    [cleanupStaleLocks] and [run_event]). *)
Inductive Task :=
| Ready (rt rid : string) (maxWaitTime : Z)            (* not called yet *)
| Waiting (rt rid : string) (maxWaitTime startTime : Z) (* asleep in the loop *)
| Settled (rt rid : string) (o : Outcome bool)          (* returned or threw *)
| Finished (rt rid : string).                           (* released its lock *)

Definition task_key (t : Task) : string :=
  match t with
  | Ready rt rid _ | Waiting rt rid _ _ | Settled rt rid _ | Finished rt rid =>
      _getLockKey rt rid
  end.

Record System := mkSystem {
  clock : Z;
  table : gmap string LockEntry;
  tasks : list Task
}.

Inductive SysEvent :=
| Advance (d : Z)      (* the clock advances *)
| Resume (i : nat)     (* task [i] is called, or its timer fires *)
| Finish (i : nat).    (* task [i], having acquired, calls releaseLock *)

Definition settle (rt rid : string) (maxWaitTime startTime : Z) (p : Poll) : Task :=
  match p with
  | Sleep _ => Waiting rt rid maxWaitTime startTime
  | Return b => Settled rt rid (Returned b)
  | Throw e => Settled rt rid (Thrown e)
  end.

Definition resume (t : Task) (now : Z) (m : gmap string LockEntry)
  : gmap string LockEntry * Task :=
  match t with
  | Ready rt rid maxWaitTime =>
      let (m', p) := acquire_check rt rid now maxWaitTime now m in
      (m', settle rt rid maxWaitTime now p)
  | Waiting rt rid maxWaitTime startTime =>
      let (m', p) := acquire_check rt rid startTime maxWaitTime now m in
      (m', settle rt rid maxWaitTime startTime p)
  | _ => (m, t)
  end.

Definition finish (t : Task) (m : gmap string LockEntry)
  : gmap string LockEntry * Task :=
  match t with
  | Settled rt rid (Returned true) => ((releaseLock rt rid m).1, Finished rt rid)
  | _ => (m, t)
  end.

Definition sys_step (e : SysEvent) (s : System) : System :=
  match e with
  | Advance d => mkSystem (clock s + d) (table s) (tasks s)
  | Resume i =>
      match tasks s !! i with
      | Some t =>
          let (m', t') := resume t (clock s) (table s) in
          mkSystem (clock s) m' (<[i := t']> (tasks s))
      | None => s
      end
  | Finish i =>
      match tasks s !! i with
      | Some t =>
          let (m', t') := finish t (table s) in
          mkSystem (clock s) m' (<[i := t']> (tasks s))
      | None => s
      end
  end.

Definition sys_run (trace : list SysEvent) (s : System) : System :=
  foldl (fun acc e => sys_step e acc) s trace.

(** Task [t] has acquired [key] and not released it. *)
Definition holds (key : string) (t : Task) : Prop :=
  exists rt rid, t = Settled rt rid (Returned true) /\ _getLockKey rt rid = key.

Definition is_ready (t : Task) : Prop :=
  match t with Ready _ _ _ => True | _ => False end.

Definition is_finish (e : SysEvent) : Prop :=
  match e with Finish _ => True | _ => False end.

(** ** concurrencyMiddleware *)

(** The parts of an Express request the middleware reads: [req.method] and
    [req.params.id] ([None] when the property is undefined). *)
Record Request := mkRequest {
  method : string;
  params_id : option string
}.

(** The arrow function handed to [res.on]: it closes over [resourceType]
    and [resourceId] and calls [lockManager.releaseLock]. *)
Inductive Callback :=
| ReleaseCallback (resourceType resourceId : string).

(** The parts of the response object the middleware touches: the status
    code, the JSON object sent with [res.json] (field name, string value),
    and the listeners registered with [res.on]. *)
Record Response := mkResponse {
  statusCode : Z;
  sent : option (list (string * string));
  listeners : list (string * Callback)
}.

(** What the middleware does with control: calls [next()] or
    [next(error)], or answers itself. *)
Inductive Control :=
| Next (error : option Error)
| Answered.

Definition conflict_message : string :=
  "Resource is currently being modified by another request".

(** JavaScript truthiness of [req.params.id]: undefined and the empty
    string are falsy. *)
Definition truthy (v : option string) : bool :=
  match v with
  | None => false
  | Some s => negb (String.eqb s "")
  end.

(** [['PUT', 'DELETE', 'PATCH'].includes(req.method)]. *)
Definition lockedMethods : list string := ["PUT"; "DELETE"; "PATCH"]%string.

Definition includes (l : list string) (x : string) : bool :=
  existsb (String.eqb x) l.

(** The condition of the first [if], negated: the request is intercepted. *)
Definition intercepts (req : Request) : bool :=
  truthy (params_id req) && includes lockedMethods (method req).

(** [res.on(event, cb)]. *)
Definition on (event : string) (cb : Callback) (res : Response) : Response :=
  mkResponse (statusCode res) (sent res) (listeners res ++ [(event, cb)]).

(** The [try] block after [await lockManager.acquireLock(...)] returned. *)
Definition after_acquire (resourceType resourceId : string) (res : Response)
  : Response * Control :=
  (on "finish" (ReleaseCallback resourceType resourceId) res, Next None).

(** The [catch (error)] block. *)
Definition on_error (error : Error) (res : Response) : Response * Control :=
  if String.eqb (message error) timeout_message
  then (mkResponse 409 (Some [("error", conflict_message)]%string) (listeners res),
        Answered)
  else (res, Next (Some error)).

(** [concurrencyMiddleware(resourceType)(req, res, next)].  The result is
    [None] while the call is still suspended inside [acquireLock]. *)
Definition concurrencyMiddleware (resourceType : string)
    (intervals : list (list Event)) (req : Request) (res : Response) (s : State)
  : State * Response * option Control :=
  match params_id req with
  | Some resourceId =>
      if intercepts req then
        match acquireLock intervals resourceType resourceId defaultMaxWaitTime s with
        | (s', None) => (s', res, None)
        | (s', Some (Returned _)) =>
            let (res', c) := after_acquire resourceType resourceId res in
            (s', res', Some c)
        | (s', Some (Thrown e)) =>
            let (res', c) := on_error e res in (s', res', Some c)
        end
      else (s, res, Some (Next None))
  | None => (s, res, Some (Next None))
  end.

(** Running a registered listener. *)
Definition run_callback (cb : Callback) (m : gmap string LockEntry)
  : gmap string LockEntry :=
  match cb with
  | ReleaseCallback rt rid => (releaseLock rt rid m).1
  end.

(** [res.emit(event)]: the listeners registered for [event] run in
    registration order. *)
Definition emit (event : string) (res : Response) (m : gmap string LockEntry)
  : gmap string LockEntry :=
  foldl (fun acc l => if String.eqb l.1 event then run_callback l.2 acc else acc)
        m (listeners res).

(** How the response lifecycle of a Node.js [http.ServerResponse] ends, and
    the events the platform emits then: ['finish'] when the response has
    been handed over for sending (a success body or an error body), then
    ['close']; only ['close'] when the connection is torn down before the
    response was finished. *)
Inductive Completion :=
| BodySent (status : Z)
| ConnectionAborted.

Definition lifecycle_events (c : Completion) : list string :=
  match c with
  | BodySent _ => ["finish"; "close"]%string
  | ConnectionAborted => ["close"]%string
  end.

Definition emit_all (events : list string) (res : Response)
    (m : gmap string LockEntry) : gmap string LockEntry :=
  foldl (fun acc ev => emit ev res acc) m events.

Definition complete (c : Completion) (res : Response)
    (m : gmap string LockEntry) : gmap string LockEntry :=
  emit_all (lifecycle_events c) res m.

(** ** Auxiliary predicates used in the statements *)

(** The string has no [":"] in it. *)
Fixpoint colon_free (s : string) : bool :=
  match s with
  | EmptyString => true
  | String c rest => negb (Ascii.eqb c ":"%char) && colon_free rest
  end.

(** An entry is stale at time [t]. *)
Definition stale (t : Z) (lock : LockEntry) : Prop :=
  maxAge < t - timestamp lock.

#[global] Instance stale_dec t lock : Decision (stale t lock).
Proof. unfold stale. apply _. Defined.

(** Only the clock and the sweep act during these events: nobody releases
    and nobody else acquires. *)
Definition tick_or_sweep (e : Event) : Prop :=
  match e with Tick d => 0 <= d | Sweep => True | _ => False end.

(** The events keep [key] locked if it was. *)
Definition keeps_held (key : string) (evs : list Event) : Prop :=
  forall s, has key (locks s) = true -> has key (locks (run_events evs s)) = true.

(** What one step of one task does to the table and to the task: nothing
    that matters for ownership, or the task takes its key, or the task
    gives its key back. *)
Inductive Change (m m' : gmap string LockEntry) (t t' : Task) : Prop :=
| Unchanged :
    m' = m -> (forall key, holds key t' <-> holds key t) -> Change m m' t t'
| Took (e : LockEntry) :
    m !! task_key t = None ->
    m' = <[task_key t := e]> m ->
    (forall key, ~ holds key t) ->
    (forall key, holds key t' <-> key = task_key t) ->
    Change m m' t t'
| Gave :
    holds (task_key t) t ->
    m' = delete (task_key t) m ->
    (forall key, ~ holds key t') ->
    Change m m' t t'.

(** The ownership invariant of the system started from the table [m0]:
    a task that holds a key has its entry in the table, no two tasks hold
    the same key, and an entry of a key that was free at the start belongs
    to a task. *)
Record Inv (m0 : gmap string LockEntry) (s : System) : Prop := mkInv {
  inv_held : forall i t key,
    tasks s !! i = Some t -> holds key t -> is_Some (table s !! key);
  inv_unique : forall i j ti tj key,
    tasks s !! i = Some ti -> tasks s !! j = Some tj ->
    holds key ti -> holds key tj -> i = j;
  inv_owner : forall key,
    m0 !! key = None -> is_Some (table s !! key) ->
    exists i t, tasks s !! i = Some t /\ holds key t
}.

(** A settled call returned [true] or threw the timeout error. *)
Definition well_settled (t : Task) : Prop :=
  match t with
  | Settled _ _ (Returned b) => b = true
  | Settled _ _ (Thrown e) => e = mkError timeout_message
  | _ => True
  end.

(** Every task that has been called finds its key in the table. *)
Definition called_see_entry (s : System) : Prop :=
  forall i t, tasks s !! i = Some t -> ~ is_ready t ->
    is_Some (table s !! task_key t).

(** ** The sweep timer and sequences of sleeps *)

(** The period of [setInterval(() => lockManager.cleanupStaleLocks(), 60000)]. *)
Definition sweepPeriod : Z := 60000.

(** The time of the [k]-th run of the interval callback, for a module
    loaded at [loaded] and a timer that keeps its period. *)
Definition sweep_tick (loaded : Z) (k : nat) : Z :=
  loaded + sweepPeriod * Z.of_nat k.

(** The table after the first [n] runs of the sweep, when nothing else
    touches it. *)
Fixpoint sweeps (loaded : Z) (n : nat) (m : gmap string LockEntry)
  : gmap string LockEntry :=
  match n with
  | O => m
  | S n' => cleanupStaleLocks (sweep_tick loaded (S n')) (sweeps loaded n' m)
  end.

(** The state after several sleeps in a row. *)
Definition run_intervals (intervals : list (list Event)) (s : State) : State :=
  foldl (fun acc evs => run_events evs acc) s intervals.

(** ** backend/utils/dataConsistency.js: updateRelatedData

    Records read from the JSON files are JavaScript objects: finite maps
    from property names to values.  The values are kept abstract ([V]);
    [===] on the ids stored in the files (strings, finite numbers) is
    equality.  Reading a missing property gives [undefined]. *)
Module Relationships.

Definition get {V : Type} (undefined : V) (o : gmap string V) (f : string) : V :=
  default undefined (o !! f).

(** [{ ...job, operator_name: updates.name }]. *)
Definition rename_operator {V : Type} (undefined : V)
    (updates job : gmap string V) : gmap string V :=
  <["operator_name"%string := get undefined updates "name"]> job.

(** The callback of [jobs.map] in the ['pad'] case: [operator] is the
    result of [operators.find], [None] for undefined. *)
Definition rename_pad {V : Type} `{EqDecision V} (undefined : V) (id : V)
    (updates : gmap string V) (operator : option (gmap string V))
    (job : gmap string V) : gmap string V :=
  if decide (get undefined job "pad_id" = id) then
    <["operator_name"%string :=
        match operator with
        | Some o => get undefined o "name"
        | None => get undefined job "operator_name"
        end]>
      (<["pad_name"%string := get undefined updates "name"]> job)
  else job.

(** [updateRelatedData(entityType, id, updates)] after the three reads
    ([jobs], [pads], [operators]) succeeded; [None] is the [null] of the
    [default] case. *)
Definition updateRelatedData {V : Type} `{EqDecision V} (undefined : V)
    (entityType : string) (id : V) (updates : gmap string V)
    (jobs pads operators : list (gmap string V))
  : option (list (gmap string V)) :=
  if String.eqb entityType "operator" then
    let operatorPads :=
      List.filter (fun p => bool_decide (get undefined p "operator_id" = id)) pads in
    let affectedJobs :=
      List.filter
        (fun j => existsb (fun p => bool_decide
                             (get undefined p "id" = get undefined j "pad_id"))
                          operatorPads)
        jobs in
    Some (map (rename_operator undefined updates) affectedJobs)
  else if String.eqb entityType "pad" then
    match List.find (fun p => bool_decide (get undefined p "id" = id)) pads with
    | None => Some jobs
    | Some pad =>
        let operator :=
          List.find (fun o => bool_decide
                       (get undefined o "id" = get undefined pad "operator_id"))
                    operators in
        Some (map (rename_pad undefined id updates operator) jobs)
    end
  else None.

End Relationships.

(** ** backend/utils/sequence.js: findNextAvailableId

    Ids are integers. *)
Module Sequence.

(** [existingIds.sort((a, b) => a - b)]. *)
Definition sort_ascending (ids : list Z) : list Z := merge_sort Z.le ids.

(** [sortedIds.includes(i)]. *)
Definition includes (ids : list Z) (i : Z) : bool := bool_decide (i ∈ ids).

(** The [for (let i = 1; i <= top; i++)] loop, entered at [i]; [None] when
    the fuel runs out before the loop ends. *)
Fixpoint find_gap (fuel : nat) (i top : Z) (sortedIds : list Z) : option Z :=
  match fuel with
  | O => None
  | S fuel' =>
      if i <=? top then
        if includes sortedIds i
        then find_gap fuel' (i + 1) top sortedIds
        else Some (i - 1)
      else Some top
  end.

(** [findNextAvailableId(existingIds)], with the loop given [fuel] steps. *)
Definition findNextAvailableId (fuel : nat) (existingIds : list Z) : option Z :=
  match existingIds with
  | [] => Some 0
  | _ =>
      let sortedIds := sort_ascending existingIds in
      let top := default 0 (last sortedIds) in
      find_gap fuel 1 top sortedIds
  end.

(** The sequence file: [None] when it does not exist, otherwise the object
    it holds, a map from sequence names to integer counters. *)

(** The object written by [initializeSequences] when the file is missing. *)
Definition initial_sequences : gmap string Z :=
  <["jobs"%string := 0]> (<["incidents"%string := 0]>
    (<["operators"%string := 0]> (<["pads"%string := 0]> ∅))).

(** [initializeSequences()]: the file afterwards. *)
Definition initializeSequences (file : option (gmap string Z)) : gmap string Z :=
  match file with
  | Some sequences => sequences
  | None => initial_sequences
  end.

(** [sequences[sequenceName] = (sequences[sequenceName] || 0) + 1]. *)
Definition increment (sequenceName : string) (sequences : gmap string Z)
  : gmap string Z :=
  <[sequenceName := default 0 (sequences !! sequenceName) + 1]> sequences.

(** [getNextId(sequenceName)] run without interruption: the file
    afterwards and the id returned. *)
Definition getNextId (sequenceName : string) (file : option (gmap string Z))
  : gmap string Z * Z :=
  let sequences := increment sequenceName (initializeSequences file) in
  (sequences, default 0 (sequences !! sequenceName)).


(** A call in flight.  [getNextId] gives way at each [await]: after
    [initializeSequences] and [fs.readFile] it holds the parsed object, and
    the incremented object reaches the file only with [fs.writeFile]. *)
Inductive Call :=
| Called (sequenceName : string)
| HasRead (sequenceName : string) (sequences : gmap string Z)
| Done (sequenceName : string) (id : Z).

(** Up to the end of [fs.readFile]: the file is created if missing, read,
    and the counter incremented in the parsed object. *)
Definition read_step (c : Call) (file : option (gmap string Z))
  : Call * option (gmap string Z) :=
  match c with
  | Called name =>
      let current := initializeSequences file in
      (HasRead name (increment name current), Some current)
  | _ => (c, file)
  end.

(** [fs.writeFile] and the [return]. *)
Definition write_step (c : Call) (file : option (gmap string Z))
  : Call * option (gmap string Z) :=
  match c with
  | HasRead name sequences =>
      (Done name (default 0 (sequences !! name)), Some sequences)
  | _ => (c, file)
  end.

End Sequence.

(** ** frontend/src/utils/validation.ts: validateForm

    [V] is the type of field values and [F] the type of the form object;
    [read data field] is [data[field]].  A rule's [validate] is a function
    that returns a boolean; [rules] is an object, a map from field names to
    rule lists, and the result does not depend on the order in which its
    keys are visited. *)
Module Validation.

Record ValidationRule (V F : Type) := mkRule {
  validate : V -> F -> bool;
  message : string
}.
Arguments mkRule {V F} validate message.
Arguments validate {V F} _ _ _.
Arguments message {V F} _.

(** The [for (const rule of fieldRules)] loop with its [break]: the message
    of the first rule that rejects the value, if any. *)
Fixpoint first_failure {V F : Type} (fieldRules : list (ValidationRule V F))
    (value : V) (data : F) : option string :=
  match fieldRules with
  | [] => None
  | rule :: rest =>
      if validate rule value data then first_failure rest value data
      else Some (message rule)
  end.

(** The callback of [Object.keys(rules).forEach]. *)
Definition check_field {V F : Type} (read : F -> string -> V) (data : F)
    (field : string) (fieldRules : list (ValidationRule V F))
    (errors : gmap string string) : gmap string string :=
  match first_failure fieldRules (read data field) data with
  | Some msg => <[field := msg]> errors
  | None => errors
  end.

(** [validateForm(data, rules)]. *)
Definition validateForm {V F : Type} (read : F -> string -> V) (data : F)
    (rules : gmap string (list (ValidationRule V F))) : gmap string string :=
  foldr (fun kv errors => check_field read data kv.1 kv.2 errors) ∅
        (map_to_list rules).

(** [hasErrors(errors)]: [Object.keys(errors).length > 0]. *)
Definition hasErrors (errors : gmap string string) : bool :=
  (0 <? length (map_to_list errors))%nat.

End Validation.

(** * Properties *)

(** ** Basic facts about the table operations *)

Lemma has_true key (m : gmap string LockEntry) :
  has key m = true <-> is_Some (m !! key).
Proof.
  unfold has. destruct (m !! key) eqn:E; split; intros H; try done.
Qed.

Lemma has_false key (m : gmap string LockEntry) :
  has key m = false <-> m !! key = None.
Proof. unfold has. destruct (m !! key); split; intros H; done. Qed.

Lemma has_insert key k e (m : gmap string LockEntry) :
  has key (<[k := e]> m) = if decide (k = key) then true else has key m.
Proof.
  unfold has. rewrite lookup_insert. by case_decide.
Qed.

Lemma has_delete key k (m : gmap string LockEntry) :
  has key (delete k m) = if decide (k = key) then false else has key m.
Proof.
  unfold has. rewrite lookup_delete. by case_decide.
Qed.

Lemma releaseLock_spec rt rid (m : gmap string LockEntry) :
  releaseLock rt rid m = (delete (_getLockKey rt rid) m, has (_getLockKey rt rid) m).
Proof.
  unfold releaseLock. destruct (has _ m) eqn:E; [done |].
  apply has_false in E. by rewrite delete_id.
Qed.

Lemma acquire_check_free rt rid start maxWait t (m : gmap string LockEntry) :
  m !! _getLockKey rt rid = None ->
  acquire_check rt rid start maxWait t m =
    (<[_getLockKey rt rid := mkLockEntry t rt rid]> m, Return true).
Proof.
  intros H. unfold acquire_check. apply has_false in H. by rewrite H.
Qed.

Lemma acquire_check_held rt rid start maxWait t (m : gmap string LockEntry) :
  is_Some (m !! _getLockKey rt rid) ->
  acquire_check rt rid start maxWait t m =
    (m, if t - start >? maxWait then Throw (mkError timeout_message) else Sleep 100).
Proof.
  intros H. unfold acquire_check. apply has_true in H. rewrite H.
  by destruct (t - start >? maxWait).
Qed.

(** ** The sweep as a filter *)

Lemma cleanup_fold_lookup t (l : list (string * LockEntry))
    (m : gmap string LockEntry) key :
  foldr (fun kv acc => cleanup_visit t kv.1 kv.2 acc) m l !! key =
    if decide (Exists (fun kv => kv.1 = key /\ stale t kv.2) l)
    then None else m !! key.
Proof.
  induction l as [| [k e] l IH]; cbn [foldr fst snd].
  - case_decide as H; [by apply Exists_nil in H | done].
  - unfold cleanup_visit at 1.
    destruct (Z.gtb_spec (t - timestamp e) maxAge) as [Hs | Hs].
    + rewrite lookup_delete. destruct (decide (k = key)) as [-> | Hk].
      * rewrite decide_True; [done |].
        apply Exists_cons_hd. split; [done |]. unfold stale. simpl. lia.
      * rewrite IH. case_decide as H1; case_decide as H2; try done.
        -- exfalso. apply H2. by apply Exists_cons_tl.
        -- apply Exists_cons in H2 as [[? _] | ?]; simpl in *; congruence.
    + rewrite IH. case_decide as H1; case_decide as H2; try done.
      * exfalso. apply H2. by apply Exists_cons_tl.
      * apply Exists_cons in H2 as [[_ Hst] | ?]; [| done].
        unfold stale in Hst. simpl in Hst. lia.
Qed.

Lemma cleanup_lookup t (m : gmap string LockEntry) key :
  cleanupStaleLocks t m !! key =
    match m !! key with
    | Some e => if t - timestamp e >? maxAge then None else Some e
    | None => None
    end.
Proof.
  unfold cleanupStaleLocks. rewrite cleanup_fold_lookup.
  destruct (m !! key) as [e |] eqn:E.
  - destruct (Z.gtb_spec (t - timestamp e) maxAge) as [Hs | Hs].
    + rewrite decide_True; [done |].
      apply Exists_exists. exists (key, e). split.
      * by apply elem_of_map_to_list.
      * split; [done |]. unfold stale. simpl. lia.
    + rewrite decide_False; [done |].
      intros H. apply Exists_exists in H as [[k e'] [Hin [Hk Hst]]].
      simpl in *. subst k. apply elem_of_map_to_list in Hin.
      rewrite E in Hin. injection Hin as <-. unfold stale in Hst. lia.
  - case_decide; done.
Qed.

Lemma cleanup_keeps t (m : gmap string LockEntry) key e :
  m !! key = Some e -> t - timestamp e <= maxAge ->
  cleanupStaleLocks t m !! key = Some e.
Proof.
  intros H Hle. rewrite cleanup_lookup, H.
  destruct (Z.gtb_spec (t - timestamp e) maxAge); [lia | done].
Qed.

Lemma cleanup_removes t (m : gmap string LockEntry) key e :
  m !! key = Some e -> t - timestamp e > maxAge ->
  cleanupStaleLocks t m !! key = None.
Proof.
  intros H Hgt. rewrite cleanup_lookup, H.
  destruct (Z.gtb_spec (t - timestamp e) maxAge); [done | lia].
Qed.

(** ** Lock keys *)

Lemma append_empty (s : string) : "" +:+ s = s.
Proof. reflexivity. Qed.

Lemma append_String a (s1 s2 : string) :
  String a s1 +:+ s2 = String a (s1 +:+ s2).
Proof. reflexivity. Qed.

Lemma getLockKey_inj rt1 rid1 rt2 rid2 :
  colon_free rt1 = true -> colon_free rt2 = true ->
  _getLockKey rt1 rid1 = _getLockKey rt2 rid2 ->
  rt1 = rt2 /\ rid1 = rid2.
Proof.
  unfold _getLockKey. revert rt2.
  induction rt1 as [| a rt1 IH]; intros [| b rt2]; cbn; intros H1 H2 E;
    repeat (rewrite append_empty in E || rewrite append_String in E).
  - by injection E as ->.
  - injection E as <- _. by rewrite Ascii.eqb_refl in H2.
  - injection E as -> _. by rewrite Ascii.eqb_refl in H1.
  - injection E as -> E.
    apply andb_prop in H1 as [_ H1]. apply andb_prop in H2 as [_ H2].
    destruct (IH rt2 H1 H2 E) as [-> ->]. done.
Qed.

(** C4. The key derived for a pair is the two strings joined by a colon, so
    two different pairs derive the same key when the colon can be read at
    two places: resource type ["job:1"] with id ["2"] and resource type
    ["job"] with id ["1:2"] both lock ["job:1:2"], and taking one blocks the
    other.  (On resource types without a colon the derivation is injective,
    [getLockKey_inj].) *)
Theorem getLockKey_collision :
  ("job:1", "2")%string <> ("job", "1:2")%string
  /\ _getLockKey "job:1" "2" = _getLockKey "job" "1:2"
  /\ forall t m,
       m !! _getLockKey "job:1" "2" = None ->
       isLocked "job" "1:2" (acquire_check "job:1" "2" t defaultMaxWaitTime t m).1 = true.
Proof.
  split; [done |]. split; [done |].
  intros t m H. rewrite acquire_check_free by done. simpl.
  unfold isLocked. rewrite has_insert. by rewrite decide_True.
Qed.

(** ** Release *)

(** C5. [releaseLock] removes the entry of the key and returns [true] when
    there is one, returns [false] and leaves the table as it is when there
    is none, so a second release in a row returns [false]; it is a total
    function (it neither waits nor throws), and the entry of every other key
    is left as it was. *)
Theorem releaseLock_contract rt rid (m : gmap string LockEntry) :
  let key := _getLockKey rt rid in
  let r := releaseLock rt rid m in
  (is_Some (m !! key) -> r.2 = true /\ r.1 !! key = None)
  /\ (m !! key = None -> r = (m, false))
  /\ releaseLock rt rid r.1 = (r.1, false)
  /\ (forall k', k' <> key -> r.1 !! k' = m !! k').
Proof.
  intros key r. subst r. rewrite !releaseLock_spec. fold key. simpl.
  repeat split.
  - by apply has_true.
  - apply lookup_delete_eq.
  - intros H. rewrite delete_id by done. f_equal. by apply has_false.
  - rewrite delete_delete_eq. f_equal. rewrite has_delete. by rewrite decide_True.
  - intros k' Hk. by rewrite lookup_delete_ne.
Qed.

(** ** Staleness sweep *)

(** C6. One pass of [cleanupStaleLocks] at time [t] keeps exactly the
    entries that are not stale (age [t - timestamp] at most 30000) and
    removes every stale one; once a stale entry of a key is reclaimed, an
    [acquireLock] on that key returns [true] at its first check, with no
    sleep and no time passed, whatever would have happened while it
    waited. *)
Theorem cleanup_removes_exactly_stale t (m : gmap string LockEntry) :
  maxAge = 30000
  /\ cleanupStaleLocks t m = filter (fun kv => ~ stale t kv.2) m
  /\ (forall key e, m !! key = Some e ->
        cleanupStaleLocks t m !! key = if decide (stale t e) then None else Some e)
  /\ (forall rt rid e t' intervals maxWaitTime,
        m !! _getLockKey rt rid = Some e -> stale t e ->
        acquireLock intervals rt rid maxWaitTime (mkState t' (cleanupStaleLocks t m)) =
          (mkState t' (<[_getLockKey rt rid := mkLockEntry t' rt rid]>
                         (cleanupStaleLocks t m)),
           Some (Returned true))).
Proof.
  split; [done |].
  assert (Hlk : forall key e, m !! key = Some e ->
    cleanupStaleLocks t m !! key = if decide (stale t e) then None else Some e).
  { intros key e H. rewrite cleanup_lookup, H. unfold stale.
    destruct (Z.gtb_spec (t - timestamp e) maxAge); case_decide; done || lia. }
  split; [| split; [done |]].
  - apply map_eq. intros key. destruct (m !! key) as [e |] eqn:E.
    + rewrite (Hlk _ _ E). case_decide as Hs.
      * symmetry. apply map_lookup_filter_None. right. intros e' He'.
        simpl. rewrite E in He'. injection He' as <-. tauto.
      * symmetry. apply map_lookup_filter_Some. done.
    + rewrite cleanup_lookup, E. symmetry.
      apply map_lookup_filter_None. by left.
  - intros rt rid e t' intervals maxWaitTime H Hs.
    unfold acquireLock. destruct intervals; simpl;
      rewrite acquire_check_free; try done;
      rewrite (Hlk _ _ H); by rewrite decide_True.
Qed.

(** ** The waiting loop *)

Lemma state_eta s : mkState (now s) (locks s) = s.
Proof. by destruct s. Qed.

Lemma run_events_cons e evs s :
  run_events (e :: evs) s = run_events evs (run_event e s).
Proof. reflexivity. Qed.

Lemma run_events_now evs s : now (run_events evs s) = now s + duration evs.
Proof.
  revert s. induction evs as [| e evs IH]; intros s.
  - simpl. lia.
  - rewrite run_events_cons, IH. destruct e; simpl; lia.
Qed.

Lemma duration_nonneg evs : Forall forward evs -> 0 <= duration evs.
Proof.
  induction 1 as [| e evs He _ IH]; simpl; [lia |].
  destruct e; simpl in He; lia.
Qed.

Lemma tick_or_sweep_forward evs : Forall tick_or_sweep evs -> Forall forward evs.
Proof. intros H. eapply Forall_impl; [exact H |]. by intros []. Qed.

(** A free key is taken at once, whatever the elapsed time. *)
Lemma acquire_loop_free intervals rt rid start maxWait s :
  locks s !! _getLockKey rt rid = None ->
  acquire_loop intervals rt rid start maxWait s =
    (mkState (now s) (<[_getLockKey rt rid := mkLockEntry (now s) rt rid]> (locks s)),
     Some (Returned true)).
Proof.
  intros H. destruct intervals; simpl; by rewrite acquire_check_free.
Qed.

(** A held key before the deadline: the call sleeps through the next
    interval. *)
Lemma acquire_loop_sleep evs rest rt rid start maxWait s :
  is_Some (locks s !! _getLockKey rt rid) ->
  now s - start <= maxWait ->
  acquire_loop (evs :: rest) rt rid start maxWait s =
    acquire_loop rest rt rid start maxWait (run_events evs s).
Proof.
  intros H Hle. simpl. rewrite acquire_check_held by done.
  destruct (Z.gtb_spec (now s - start) maxWait); [lia |].
  by rewrite state_eta.
Qed.

(** A held key after the deadline: the call throws. *)
Lemma acquire_loop_late intervals rt rid start maxWait s :
  is_Some (locks s !! _getLockKey rt rid) ->
  maxWait < now s - start ->
  acquire_loop intervals rt rid start maxWait s =
    (s, Some (Thrown (mkError timeout_message))).
Proof.
  intros H Hlt. destruct intervals; simpl; rewrite acquire_check_held by done;
    (destruct (Z.gtb_spec (now s - start) maxWait); [| lia]);
    by rewrite state_eta.
Qed.

(** While an invariant [I] that implies "the key is held" survives every
    sleep that is actually taken, the loop ends in the timeout error, at
    the first check later than the deadline. *)
Lemma acquire_loop_times_out (I : State -> Prop) rt rid start maxWait jitter :
  (forall s, I s -> is_Some (locks s !! _getLockKey rt rid)) ->
  forall intervals s,
    I s ->
    now s - start <= maxWait + 100 + jitter ->
    Forall (fun evs => forall s', I s' -> now s' - start <= maxWait ->
              I (run_events evs s') /\ 100 <= duration evs <= 100 + jitter)
           intervals ->
    maxWait - (now s - start) < 100 * Z.of_nat (length intervals) ->
    exists s',
      acquire_loop intervals rt rid start maxWait s =
        (s', Some (Thrown (mkError timeout_message)))
      /\ I s' /\ maxWait < now s' - start <= maxWait + 100 + jitter.
Proof.
  intros Hheld intervals.
  induction intervals as [| evs rest IH]; intros s Hs Hup Hall Hlen.
  - simpl in Hlen. exists s. rewrite acquire_loop_late by (auto || lia).
    repeat split; auto; lia.
  - destruct (Z.lt_ge_cases maxWait (now s - start)) as [Hlate | Hearly].
    + exists s. rewrite acquire_loop_late by auto. repeat split; auto; lia.
    + rewrite acquire_loop_sleep by (auto || lia).
      apply Forall_cons in Hall as [Hevs Hrest].
      destruct (Hevs s Hs) as [Hs' Hd]; [lia |].
      apply IH; auto.
      * rewrite run_events_now. lia.
      * rewrite run_events_now. rewrite length_cons in Hlen. lia.
Qed.

(** C2. Against a key that stays held, [acquireLock] ends in the error
    ["Lock acquisition timeout"].  With timers that fire between 100 and
    [100 + jitter] ms after they were armed, the error is raised later than
    [maxWaitTime] after the call and at most one poll interval
    ([100 + jitter] ms) past it; with exact 100ms timers it is raised at the
    first multiple of 100 above [maxWaitTime].  The table is left as it
    was. *)
Theorem acquire_timeout rt rid maxWaitTime jitter intervals s :
  0 <= maxWaitTime -> 0 <= jitter ->
  isLocked rt rid (locks s) = true ->
  Forall (timer_fires jitter) intervals ->
  Forall (keeps_held (_getLockKey rt rid)) intervals ->
  maxWaitTime < 100 * Z.of_nat (length intervals) ->
  exists s',
    acquireLock intervals rt rid maxWaitTime s =
      (s', Some (Thrown (mkError timeout_message)))
    /\ maxWaitTime < now s' - now s <= maxWaitTime + 100 + jitter
    /\ (jitter = 0 -> now s' - now s = 100 * (maxWaitTime / 100 + 1))
    /\ isLocked rt rid (locks s') = true.
Proof.
  intros HM Hj Hheld Htimer Hkeep Hlen. unfold acquireLock, isLocked in *.
  set (I := fun s' : State =>
         has (_getLockKey rt rid) (locks s') = true
         /\ (jitter = 0 -> (now s' - now s) mod 100 = 0)).
  destruct (acquire_loop_times_out I rt rid (now s) maxWaitTime jitter)
    with (intervals := intervals) (s := s) as (s' & Hrun & [Hh Hmod] & Hbound).
  - intros s' [H _]. by apply has_true.
  - split; [done |]. intros _. by rewrite Z.sub_diag.
  - lia.
  - apply Forall_forall. intros evs Hin s1 [Hh1 Hmod1] _.
    rewrite Forall_forall in Htimer. rewrite Forall_forall in Hkeep.
    destruct (Htimer evs Hin) as [_ Hd]. split; [split |]; [| | done].
    + by apply Hkeep.
    + intros ->. specialize (Hmod1 eq_refl).
      rewrite run_events_now.
      replace (now s1 + duration evs - now s) with (now s1 - now s + 1 * 100) by lia.
      by rewrite Z_mod_plus_full.
  - lia.
  - exists s'. repeat split; try done; try lia.
    intros ->. specialize (Hmod eq_refl).
    apply Z.mod_divide in Hmod as [q Hq]; [| lia]. rewrite Hq in *.
    assert (q = maxWaitTime / 100 + 1) as ->; [| lia].
    pose proof (Z.div_mod maxWaitTime 100).
    pose proof (Z.mod_pos_bound maxWaitTime 100). lia.
Qed.

Lemma acquire_timeout_witness :
  let s := mkState 0 {[ "job:42"%string := mkLockEntry 0 "job" "42" ]} in
  exists s',
    acquireLock (repeat [Tick 100] 3) "job" "42" 200 s =
      (s', Some (Thrown (mkError timeout_message)))
    /\ 200 < now s' - now s <= 200 + 100 + 0
    /\ (0 = 0 -> now s' - now s = 100 * (200 / 100 + 1))
    /\ isLocked "job" "42" (locks s') = true.
Proof.
  intros s.
  apply (acquire_timeout "job" "42" 200 0 (repeat [Tick 100] 3) s).
  - lia.
  - lia.
  - reflexivity.
  - repeat constructor; simpl; lia.
  - repeat constructor; intros s' H; exact H.
  - simpl. lia.
Defined.

(** The error is thrown only from a check that saw the key held, after the
    deadline. *)
Lemma acquire_loop_thrown intervals rt rid start maxWait s s' e :
  acquire_loop intervals rt rid start maxWait s = (s', Some (Thrown e)) ->
  is_Some (locks s' !! _getLockKey rt rid)
  /\ maxWait < now s' - start
  /\ e = mkError timeout_message.
Proof.
  revert s. induction intervals as [| evs rest IH]; intros s; simpl;
    unfold acquire_check;
    destruct (has (_getLockKey rt rid) (locks s)) eqn:Hh; try done;
    destruct (Z.gtb_spec (now s - start) maxWait) as [Hlt | Hge]; try done.
  - intros [= <- <-]. simpl. split; [by apply has_true | done].
  - intros [= <- <-]. simpl. split; [by apply has_true | done].
  - apply IH.
Qed.

(** C10. The deadline is tested only inside the loop body, that is, only
    after a check that saw the key held.  A check that sees the key free
    writes the entry and returns [true] whatever time has passed since the
    call began; the timeout error comes only from a check that saw the key
    held; and a call can return [true] later than [maxWaitTime] after it
    began: with [maxWaitTime = 200] and exact 100ms timers, a lock released
    250ms after the call is taken at the check at 300ms. *)
Theorem acquire_success_after_deadline :
  (forall intervals rt rid startTime maxWaitTime s,
     locks s !! _getLockKey rt rid = None ->
     acquire_loop intervals rt rid startTime maxWaitTime s =
       (mkState (now s)
          (<[_getLockKey rt rid := mkLockEntry (now s) rt rid]> (locks s)),
        Some (Returned true)))
  /\ (forall intervals rt rid startTime maxWaitTime s s' e,
        acquire_loop intervals rt rid startTime maxWaitTime s = (s', Some (Thrown e)) ->
        isLocked rt rid (locks s') = true /\ maxWaitTime < now s' - startTime)
  /\ (let s := mkState 0 {[ "job:42"%string := mkLockEntry 0 "job" "42" ]} in
      let intervals :=
        [[Tick 100]; [Tick 100]; [Tick 50; Release "job" "42"; Tick 50]] in
      Forall (timer_fires 0) intervals
      /\ acquireLock intervals "job" "42" 200 s =
           (mkState 300 {[ "job:42"%string := mkLockEntry 300 "job" "42" ]},
            Some (Returned true))
      /\ 200 < 300 - now s).
Proof.
  split; [| split].
  - intros. by apply acquire_loop_free.
  - intros intervals rt rid startTime maxWaitTime s s' e H.
    apply acquire_loop_thrown in H as (Hh & Hlt & _).
    split; [by apply has_true | done].
  - split; [| split].
    + repeat constructor; simpl; lia.
    + vm_compute. reflexivity.
    + simpl. lia.
Qed.

(** ** Timeout and sweep *)

(** With only the clock and the sweep acting, an entry survives as long as
    its age stays within [maxAge]. *)
Lemma quiet_keeps_entry key e evs s :
  Forall tick_or_sweep evs ->
  locks s !! key = Some e ->
  now s + duration evs - timestamp e <= maxAge ->
  locks (run_events evs s) !! key = Some e.
Proof.
  intros Hq. revert s. induction Hq as [| ev evs Hev Hq IH]; intros s He Hage.
  - done.
  - rewrite run_events_cons.
    pose proof (duration_nonneg evs (tick_or_sweep_forward _ Hq)) as Hd.
    destruct ev; simpl in Hev; try done.
    + apply IH; simpl in *; [done | lia].
    + apply IH; simpl in *; [| lia]. apply cleanup_keeps; [done | lia].
Qed.

(** With only the clock and the sweep acting, the entry is either still
    there or gone at an age above [maxAge]. *)
Lemma quiet_entry_or_stale key e evs s :
  Forall tick_or_sweep evs ->
  locks s !! key = Some e \/ (locks s !! key = None /\ stale (now s) e) ->
  locks (run_events evs s) !! key = Some e
  \/ (locks (run_events evs s) !! key = None /\ stale (now (run_events evs s)) e).
Proof.
  intros Hq. revert s. induction Hq as [| ev evs Hev Hq IH]; intros s H.
  - done.
  - rewrite run_events_cons. apply IH. clear IH.
    destruct ev; simpl in Hev; try done; simpl.
    + destruct H as [H | [H Hs]]; [by left | right].
      split; [done |]. unfold stale in *. lia.
    + rewrite cleanup_lookup.
      destruct H as [H | [H Hs]]; rewrite H; [| by right].
      destruct (Z.gtb_spec (now s - timestamp e) maxAge); [right | by left].
      split; [done |]. unfold stale. lia.
Qed.

(** Against a holder that never releases, a call returns only after the
    sweep has reclaimed the entry. *)
Lemma acquire_loop_only_after_reclaim intervals rt rid e start maxWait s s' b :
  Forall (Forall tick_or_sweep) intervals ->
  locks s !! _getLockKey rt rid = Some e
  \/ (locks s !! _getLockKey rt rid = None /\ stale (now s) e) ->
  acquire_loop intervals rt rid start maxWait s = (s', Some (Returned b)) ->
  stale (now s') e.
Proof.
  intros Hq. revert s. induction Hq as [| evs rest Hevs Hq IH]; intros s H.
  - destruct H as [H | [H Hs]].
    + simpl. rewrite acquire_check_held by (by rewrite H).
      by destruct (now s - start >? maxWait).
    + rewrite acquire_loop_free by done. by intros [= <- _].
  - destruct H as [H | [H Hs]].
    + destruct (Z.lt_ge_cases maxWait (now s - start)) as [Hlate | Hearly].
      * rewrite acquire_loop_late; [done | by rewrite H | done].
      * rewrite acquire_loop_sleep; [| by rewrite H | lia].
        apply IH. apply quiet_entry_or_stale; auto.
    + rewrite acquire_loop_free by done. by intros [= <- _].
Qed.

(** C9. The default [maxWaitTime] (5000) is below the staleness threshold
    (30000).  A call with the default [maxWaitTime] that starts soon after
    the holder acquired (so that its deadline plus one poll interval falls
    within the holder's first 30000ms), against a holder that never
    releases and with sweeps running at any moments, ends in the timeout
    error about 5000ms after it began, while the holder's entry is still
    in the table and still too young for the sweep.  A sweep that runs once
    the entry is older than 30000ms reclaims it, a retry after that returns
    [true] at once, and no call returns before the entry is that old. *)
Theorem timeout_before_sweep rt rid e s jitter intervals :
  0 <= jitter ->
  locks s !! _getLockKey rt rid = Some e ->
  now s - timestamp e + defaultMaxWaitTime + 100 + jitter <= maxAge ->
  Forall (timer_fires jitter) intervals ->
  Forall (Forall tick_or_sweep) intervals ->
  defaultMaxWaitTime < 100 * Z.of_nat (length intervals) ->
  defaultMaxWaitTime = 5000 /\ maxAge = 30000 /\ defaultMaxWaitTime < maxAge
  /\ exists s',
       acquireLock intervals rt rid defaultMaxWaitTime s =
         (s', Some (Thrown (mkError timeout_message)))
       /\ defaultMaxWaitTime < now s' - now s <= defaultMaxWaitTime + 100 + jitter
       /\ now s' - timestamp e <= maxAge
       /\ locks s' !! _getLockKey rt rid = Some e
       /\ (forall t, t - timestamp e <= maxAge ->
             cleanupStaleLocks t (locks s') !! _getLockKey rt rid = Some e)
       /\ (forall t t' retry, maxAge < t - timestamp e ->
             cleanupStaleLocks t (locks s') !! _getLockKey rt rid = None
             /\ acquireLock retry rt rid defaultMaxWaitTime
                  (mkState t' (cleanupStaleLocks t (locks s'))) =
                (mkState t' (<[_getLockKey rt rid := mkLockEntry t' rt rid]>
                               (cleanupStaleLocks t (locks s'))),
                 Some (Returned true)))
       /\ (forall later retry s'' b,
             Forall tick_or_sweep later ->
             Forall (Forall tick_or_sweep) retry ->
             acquireLock retry rt rid defaultMaxWaitTime (run_events later s') =
               (s'', Some (Returned b)) ->
             maxAge < now s'' - timestamp e).
Proof.
  intros Hj He Hage Htimer Hquiet Hlen.
  split; [done |]. split; [done |]. split; [done |].
  unfold acquireLock.
  set (I := fun s' : State => locks s' !! _getLockKey rt rid = Some e).
  destruct (acquire_loop_times_out I rt rid (now s) defaultMaxWaitTime jitter)
    with (intervals := intervals) (s := s) as (s' & Hrun & Hs' & Hbound).
  - intros s' H. unfold I in H. by rewrite H.
  - done.
  - unfold defaultMaxWaitTime. lia.
  - apply Forall_forall. intros evs Hin s1 Hs1 Hle.
    rewrite Forall_forall in Htimer. rewrite Forall_forall in Hquiet.
    destruct (Htimer evs Hin) as [_ Hd]. split; [| done].
    apply quiet_keeps_entry; [by apply Hquiet | done | lia].
  - lia.
  - exists s'. unfold I in Hs'.
    split; [done |]. split; [done |]. split; [lia |]. split; [done |].
    split; [| split].
    + intros t Ht. by apply cleanup_keeps.
    + intros t t' retry Ht.
      assert (Hgone : cleanupStaleLocks t (locks s') !! _getLockKey rt rid = None)
        by (apply (cleanup_removes _ _ _ e); [done | lia]).
      split; [done |]. by rewrite acquire_loop_free.
    + intros later retry s'' b Hlater Hretry Hr.
      apply (acquire_loop_only_after_reclaim _ _ _ e) in Hr; [done | done |].
      apply quiet_entry_or_stale; auto.
Qed.

Lemma timeout_before_sweep_witness :
  let e := mkLockEntry 0 "job" "42" in
  let s := mkState 50 {[ "job:42"%string := e ]} in
  let intervals := repeat [Tick 60; Sweep; Tick 40] 51 in
  exists s',
    acquireLock intervals "job" "42" defaultMaxWaitTime s =
      (s', Some (Thrown (mkError timeout_message)))
    /\ now s' = 5150
    /\ locks s' !! "job:42"%string = Some e.
Proof.
  intros e s intervals.
  destruct (timeout_before_sweep "job" "42" e s 0 intervals)
    as (_ & _ & _ & s' & Hrun & Hbound & _ & He & _).
  - lia.
  - reflexivity.
  - vm_compute. discriminate.
  - repeat constructor; simpl; lia.
  - repeat constructor; simpl; lia.
  - vm_compute. reflexivity.
  - exists s'. split; [exact Hrun |]. split; [| exact He].
    assert (Hc : acquireLock intervals "job" "42" defaultMaxWaitTime s =
                 (mkState 5150 {[ "job:42"%string := e ]},
                  Some (Thrown (mkError timeout_message))))
      by (vm_compute; reflexivity).
    rewrite Hc in Hrun. injection Hrun as <-. reflexivity.
Defined.

(** ** Mutual exclusion among concurrent calls *)

Lemma holds_task_key key t : holds key t -> key = task_key t.
Proof. by intros (rt & rid & -> & <-). Qed.

Lemma acquire_check_cases rt rid start maxWait t (m : gmap string LockEntry) :
  (m !! _getLockKey rt rid = None
   /\ acquire_check rt rid start maxWait t m =
        (<[_getLockKey rt rid := mkLockEntry t rt rid]> m, Return true))
  \/ (is_Some (m !! _getLockKey rt rid)
      /\ exists p, acquire_check rt rid start maxWait t m = (m, p)
                   /\ (p = Sleep 100 \/ p = Throw (mkError timeout_message))).
Proof.
  destruct (m !! _getLockKey rt rid) as [e |] eqn:E.
  - right. split; [done |]. rewrite acquire_check_held by (by rewrite E).
    eexists. split; [done |]. destruct (t - start >? maxWait); auto.
  - left. split; [done |]. by apply acquire_check_free.
Qed.

Lemma settle_not_holds rt rid maxWait start p key :
  p = Sleep 100 \/ p = Throw (mkError timeout_message) ->
  ~ holds key (settle rt rid maxWait start p).
Proof. intros [-> | ->] (rt' & rid' & H & _); simpl in H; discriminate. Qed.

Lemma resume_change t c (m : gmap string LockEntry) :
  Change m (resume t c m).1 t (resume t c m).2.
Proof.
  destruct t as [rt rid mw | rt rid mw st | rt rid o | rt rid]; simpl;
    try (by apply Unchanged).
  - destruct (acquire_check_cases rt rid c mw c m) as [[Hf ->] | [Hh (p & -> & Hp)]].
    + apply (Took _ _ _ _ (mkLockEntry c rt rid)); simpl; try done.
      * intros key (? & ? & ? & _). discriminate.
      * intros key. split; [apply holds_task_key |].
        intros ->. by exists rt, rid.
    + apply Unchanged; [done |]. intros key. split; intros H.
      * by apply settle_not_holds in H.
      * destruct H as (? & ? & ? & _). discriminate.
  - destruct (acquire_check_cases rt rid st mw c m) as [[Hf ->] | [Hh (p & -> & Hp)]].
    + apply (Took _ _ _ _ (mkLockEntry c rt rid)); simpl; try done.
      * intros key (? & ? & ? & _). discriminate.
      * intros key. split; [apply holds_task_key |].
        intros ->. by exists rt, rid.
    + apply Unchanged; [done |]. intros key. split; intros H.
      * by apply settle_not_holds in H.
      * destruct H as (? & ? & ? & _). discriminate.
Qed.

Lemma finish_change t (m : gmap string LockEntry) :
  Change m (finish t m).1 t (finish t m).2.
Proof.
  destruct t as [rt rid mw | rt rid mw st | rt rid [[|] | e] | rt rid]; simpl;
    try (by apply Unchanged).
  apply Gave; simpl.
  - by exists rt, rid.
  - by rewrite releaseLock_spec.
  - intros key (? & ? & ? & _). discriminate.
Qed.

Lemma inv_change m0 c c' (m m' : gmap string LockEntry) (ts : list Task) i t t' :
  Inv m0 (mkSystem c m ts) -> ts !! i = Some t -> Change m m' t t' ->
  Inv m0 (mkSystem c' m' (<[i := t']> ts)).
Proof.
  intros [Hheld Huniq Hown] Hi Hch. simpl in *.
  assert (Hlen : (i < length ts)%nat) by (by eapply lookup_lt_Some).
  destruct Hch as [-> Hiff | e Hfree -> Hno Hyes | Hold -> Hno].
  - (* ownership is as before, index by index *)
    assert (Hback : forall j tj key,
              <[i := t']> ts !! j = Some tj -> holds key tj ->
              exists tj', ts !! j = Some tj' /\ holds key tj').
    { intros j tj key Hj Hk.
      apply list_lookup_insert_Some in Hj as [(<- & <- & _) | [Hne Hj]].
      - exists t. split; [done |]. by apply Hiff.
      - by exists tj. }
    split; simpl.
    + intros j tj key Hj Hk.
      destruct (Hback _ _ _ Hj Hk) as (tj' & Hj' & Hk'). by eapply Hheld.
    + intros j1 j2 t1 t2 key H1 H2 Hk1 Hk2.
      destruct (Hback _ _ _ H1 Hk1) as (t1' & H1' & Hk1').
      destruct (Hback _ _ _ H2 Hk2) as (t2' & H2' & Hk2').
      by eapply Huniq.
    + intros key H0 Hsome.
      destruct (Hown key H0 Hsome) as (j & tj & Hj & Hk).
      destruct (decide (i = j)) as [<- | Hne].
      * exists i, t'. rewrite list_lookup_insert_eq by done.
        split; [done |]. apply Hiff. congruence.
      * exists j, tj. by rewrite list_lookup_insert_ne.
  - (* task [i] takes its key, which was free *)
    assert (Hback : forall j tj key,
              <[i := t']> ts !! j = Some tj -> holds key tj ->
              (j = i /\ key = task_key t) \/ (j <> i /\ ts !! j = Some tj)).
    { intros j tj key Hj Hk.
      apply list_lookup_insert_Some in Hj as [(<- & <- & _) | [Hne Hj]].
      - left. split; [done |]. by apply Hyes.
      - right. split; [congruence | done]. }
    split; simpl.
    + intros j tj key Hj Hk.
      destruct (Hback _ _ _ Hj Hk) as [[-> ->] | [Hne Hj']].
      * rewrite lookup_insert_eq. eauto.
      * rewrite lookup_insert. case_decide; [eauto |]. by eapply Hheld.
    + intros j1 j2 t1 t2 key H1 H2 Hk1 Hk2.
      destruct (Hback _ _ _ H1 Hk1) as [[-> ->] | [Hne1 H1']];
        destruct (Hback _ _ _ H2 Hk2) as [[-> Hkey] | [Hne2 H2']]; try done.
      * pose proof (Hheld _ _ _ H2' Hk2) as Hs. rewrite Hfree in Hs.
        by destruct Hs.
      * subst key. pose proof (Hheld _ _ _ H1' Hk1) as Hs. rewrite Hfree in Hs.
        by destruct Hs.
      * by eapply Huniq.
    + intros key H0 Hsome. rewrite lookup_insert in Hsome.
      case_decide as Hk.
      * subst key. exists i, t'. rewrite list_lookup_insert_eq by done.
        split; [done |]. by apply Hyes.
      * destruct (Hown key H0 Hsome) as (j & tj & Hj & Hkj).
        exists j, tj. split; [| done].
        rewrite list_lookup_insert_ne; [done |].
        intros <-. rewrite Hi in Hj. injection Hj as <-. by eapply Hno.
  - (* task [i] gives its key back *)
    assert (Hback : forall j tj key,
              <[i := t']> ts !! j = Some tj -> holds key tj ->
              j <> i /\ ts !! j = Some tj /\ key <> task_key t).
    { intros j tj key Hj Hk.
      apply list_lookup_insert_Some in Hj as [(<- & <- & _) | [Hne Hj]].
      - by eapply Hno in Hk.
      - split; [congruence |]. split; [done |]. intros ->.
        apply Hne. by eapply Huniq. }
    split; simpl.
    + intros j tj key Hj Hk.
      destruct (Hback _ _ _ Hj Hk) as (Hne & Hj' & Hkey).
      rewrite lookup_delete_ne by done. by eapply Hheld.
    + intros j1 j2 t1 t2 key H1 H2 Hk1 Hk2.
      destruct (Hback _ _ _ H1 Hk1) as (_ & H1' & _).
      destruct (Hback _ _ _ H2 Hk2) as (_ & H2' & _).
      by eapply Huniq.
    + intros key H0 Hsome. rewrite lookup_delete in Hsome.
      case_decide as Hk; [by destruct Hsome |].
      destruct (Hown key H0 Hsome) as (j & tj & Hj & Hkj).
      exists j, tj. split; [| done].
      rewrite list_lookup_insert_ne; [done |].
      intros <-. rewrite Hi in Hj. injection Hj as <-.
      apply holds_task_key in Hkj. congruence.
Qed.

Lemma inv_step m0 e s : Inv m0 s -> Inv m0 (sys_step e s).
Proof.
  intros H. destruct s as [c m ts]. destruct e as [d | i | i]; simpl.
  - destruct H. by split.
  - destruct (ts !! i) as [t |] eqn:Hi; [| done].
    pose proof (resume_change t c m) as Hch.
    destruct (resume t c m) as [m' t']. by eapply inv_change.
  - destruct (ts !! i) as [t |] eqn:Hi; [| done].
    pose proof (finish_change t m) as Hch.
    destruct (finish t m) as [m' t']. by eapply inv_change.
Qed.

Lemma inv_run m0 trace s : Inv m0 s -> Inv m0 (sys_run trace s).
Proof.
  revert s. induction trace as [| e trace IH]; intros s H; [done |].
  apply IH. by apply inv_step.
Qed.

Lemma inv_init c (m0 : gmap string LockEntry) ts :
  Forall is_ready ts -> Inv m0 (mkSystem c m0 ts).
Proof.
  intros Hr.
  assert (Hno : forall i t key, ts !! i = Some t -> ~ holds key t).
  { intros i t key Hi (rt & rid & -> & _).
    by apply (Forall_lookup_1 _ _ _ _ Hr) in Hi. }
  split; simpl.
  - intros i t key Hi Hk. by eapply Hno in Hk.
  - intros i j ti tj key Hi _ Hk. by eapply Hno in Hk.
  - intros key H0 Hs. rewrite H0 in Hs. by destruct Hs.
Qed.

Lemma resume_well_settled t c (m : gmap string LockEntry) :
  well_settled t -> well_settled (resume t c m).2.
Proof.
  destruct t as [rt rid mw | rt rid mw st | rt rid o | rt rid]; simpl; try done.
  - intros _.
    destruct (acquire_check_cases rt rid c mw c m)
      as [[_ ->] | [_ (p & -> & [-> | ->])]]; done.
  - intros _.
    destruct (acquire_check_cases rt rid st mw c m)
      as [[_ ->] | [_ (p & -> & [-> | ->])]]; done.
Qed.

Lemma finish_well_settled t (m : gmap string LockEntry) :
  well_settled t -> well_settled (finish t m).2.
Proof. by destruct t as [| | ? ? [[|] |] |]. Qed.

Lemma well_settled_step e s :
  Forall well_settled (tasks s) -> Forall well_settled (tasks (sys_step e s)).
Proof.
  intros H. destruct s as [c m ts]. destruct e as [d | i | i]; simpl in *.
  - done.
  - destruct (ts !! i) as [t |] eqn:Hi; [| done].
    pose proof (resume_well_settled t c m (Forall_lookup_1 _ _ _ _ H Hi)).
    destruct (resume t c m) as [m' t']. simpl. by apply Forall_insert.
  - destruct (ts !! i) as [t |] eqn:Hi; [| done].
    pose proof (finish_well_settled t m (Forall_lookup_1 _ _ _ _ H Hi)).
    destruct (finish t m) as [m' t']. simpl. by apply Forall_insert.
Qed.

Lemma well_settled_run trace s :
  Forall well_settled (tasks s) -> Forall well_settled (tasks (sys_run trace s)).
Proof.
  revert s. induction trace as [| e trace IH]; intros s H; [done |].
  apply IH. by apply well_settled_step.
Qed.

Lemma resume_table_mono t c (m : gmap string LockEntry) key :
  is_Some (m !! key) -> is_Some ((resume t c m).1 !! key).
Proof.
  intros H. destruct t as [rt rid mw | rt rid mw st | rt rid o | rt rid];
    simpl; try done.
  - destruct (acquire_check_cases rt rid c mw c m)
      as [[_ ->] | [_ (p & -> & _)]]; [| done].
    simpl. rewrite lookup_insert. by case_decide.
  - destruct (acquire_check_cases rt rid st mw c m)
      as [[_ ->] | [_ (p & -> & _)]]; [| done].
    simpl. rewrite lookup_insert. by case_decide.
Qed.

Lemma resume_sees_entry t c (m : gmap string LockEntry) :
  (~ is_ready t -> is_Some (m !! task_key t)) ->
  ~ is_ready (resume t c m).2
  /\ is_Some ((resume t c m).1 !! task_key (resume t c m).2).
Proof.
  destruct t as [rt rid mw | rt rid mw st | rt rid o | rt rid]; simpl; auto.
  - intros _.
    destruct (acquire_check_cases rt rid c mw c m)
      as [[_ ->] | [Hh (p & -> & [-> | ->])]]; simpl; split; auto.
    rewrite lookup_insert_eq. eauto.
  - intros _.
    destruct (acquire_check_cases rt rid st mw c m)
      as [[_ ->] | [Hh (p & -> & [-> | ->])]]; simpl; split; auto.
    rewrite lookup_insert_eq. eauto.
Qed.

Lemma called_see_entry_step e s :
  ~ is_finish e -> called_see_entry s -> called_see_entry (sys_step e s).
Proof.
  intros He H. destruct s as [c m ts]. unfold called_see_entry in *.
  destruct e as [d | i | i]; simpl in *; [done | | done].
  destruct (ts !! i) as [t |] eqn:Hi; [| done].
  pose proof (resume_sees_entry t c m (H i t Hi)) as [Hnr Hsee].
  pose proof (resume_table_mono t c m) as Hmono.
  destruct (resume t c m) as [m' t']. simpl in *.
  intros j tj Hj Hr.
  apply list_lookup_insert_Some in Hj as [(<- & <- & _) | [Hne Hj]]; [done |].
  apply Hmono. by eapply H.
Qed.

Lemma called_see_entry_run trace s :
  Forall (fun e => ~ is_finish e) trace ->
  called_see_entry s -> called_see_entry (sys_run trace s).
Proof.
  intros Hnf. revert s.
  induction Hnf as [| e trace He _ IH]; intros s H; [done |].
  apply IH. by apply called_see_entry_step.
Qed.

(** C1. The table is a map, so it has one entry per key at most, and
    [acquire_check] writes an entry only when its key is free at the check
    (otherwise it leaves the table alone and sleeps or throws).  For calls
    issued concurrently and resumed in any order, with winners releasing at
    any moments: two different calls never hold the same key at once; a key
    held by a call has its entry in the table; a key that was free at the
    start has an entry only while some call holds it; every settled call
    returned [true] or threw the timeout error.  As long as no winner has
    released, every call that has run finds its key taken, so of the calls
    racing for a free key exactly one has won and the others wait or have
    timed out. *)
Theorem mutual_exclusion c0 (m0 : gmap string LockEntry) tasks0 trace :
  Forall is_ready tasks0 ->
  let s := sys_run trace (mkSystem c0 m0 tasks0) in
  NoDup (map_to_list (table s)).*1
  /\ (forall rt rid startTime maxWaitTime t (m : gmap string LockEntry),
        (m !! _getLockKey rt rid = None
         /\ acquire_check rt rid startTime maxWaitTime t m =
              (<[_getLockKey rt rid := mkLockEntry t rt rid]> m, Return true))
        \/ (is_Some (m !! _getLockKey rt rid)
            /\ exists p, acquire_check rt rid startTime maxWaitTime t m = (m, p)
                 /\ (p = Sleep 100 \/ p = Throw (mkError timeout_message))))
  /\ (forall i j ti tj key,
        tasks s !! i = Some ti -> tasks s !! j = Some tj ->
        holds key ti -> holds key tj -> i = j)
  /\ (forall i t key,
        tasks s !! i = Some t -> holds key t -> is_Some (table s !! key))
  /\ (forall key,
        m0 !! key = None -> is_Some (table s !! key) ->
        exists i t, tasks s !! i = Some t /\ holds key t)
  /\ Forall well_settled (tasks s)
  /\ (Forall (fun e => ~ is_finish e) trace ->
      forall i t, tasks s !! i = Some t -> ~ is_ready t ->
        m0 !! task_key t = None ->
        exists j tj, tasks s !! j = Some tj /\ holds (task_key t) tj
          /\ (j <> i -> exists rt rid,
                (exists maxWaitTime startTime, t = Waiting rt rid maxWaitTime startTime)
                \/ t = Settled rt rid (Thrown (mkError timeout_message)))).
Proof.
  intros Hready s.
  pose proof (inv_run m0 trace _ (inv_init c0 m0 tasks0 Hready)) as [Hheld Huniq Hown].
  fold s in Hheld, Huniq, Hown.
  assert (Hws : Forall well_settled (tasks s)).
  { apply well_settled_run. simpl.
    eapply Forall_impl; [exact Hready |]. by intros []. }
  split; [apply NoDup_fst_map_to_list |].
  split; [apply acquire_check_cases |].
  do 4 (split; [done |]).
  intros Hnf i t Hi Hnr Hfree.
  assert (Hsee : called_see_entry s).
  { apply called_see_entry_run; [done |].
    intros j tj Hj Hr. simpl in Hj.
    by apply (Forall_lookup_1 _ _ _ _ Hready) in Hj. }
  destruct (Hown _ Hfree (Hsee i t Hi Hnr)) as (j & tj & Hj & Hk).
  exists j, tj. split; [done |]. split; [done |].
  intros Hne.
  pose proof (Forall_lookup_1 _ _ _ _ Hws Hi) as Hwt.
  destruct t as [rt rid mw | rt rid mw st | rt rid [b | e] | rt rid];
    simpl in *.
  - done.
  - exists rt, rid. left. eauto.
  - subst b. exfalso. apply Hne. eapply Huniq; [exact Hj | exact Hi | exact Hk |].
    by exists rt, rid.
  - subst e. exists rt, rid. by right.
  - exfalso.
    assert (Hnofin : forall tr s0,
      Forall (fun e => ~ is_finish e) tr ->
      (forall i t, tasks s0 !! i = Some t ->
         match t with Finished _ _ => False | _ => True end) ->
      forall i t, tasks (sys_run tr s0) !! i = Some t ->
         match t with Finished _ _ => False | _ => True end).
    { clear. intros tr s0 Hnf. revert s0.
      induction Hnf as [| e tr He _ IH]; intros s0 H0; [done |].
      apply IH. destruct s0 as [c m ts].
      destruct e as [d | i | i]; simpl in *; [done | | done].
      destruct (ts !! i) as [t |] eqn:Hi; [| done].
      pose proof (H0 i t Hi) as Ht.
      assert (Ht' : match (resume t c m).2 with
                    | Finished _ _ => False | _ => True end).
      { destruct t as [rt rid mw | rt rid mw st | rt rid o | rt rid];
          simpl; try done.
        - destruct (acquire_check_cases rt rid c mw c m)
            as [[_ ->] | [_ (p & -> & [-> | ->])]]; done.
        - destruct (acquire_check_cases rt rid st mw c m)
            as [[_ ->] | [_ (p & -> & [-> | ->])]]; done. }
      destruct (resume t c m) as [m' t']. simpl in *.
      intros j tj Hj.
      apply list_lookup_insert_Some in Hj as [(<- & <- & _) | [Hne Hj]]; [done |].
      by eapply H0. }
    apply (Hnofin trace (mkSystem c0 m0 tasks0) Hnf) in Hi; [done |].
    simpl. intros i' t' Hi'.
    apply (Forall_lookup_1 _ _ _ _ Hready) in Hi'. by destruct t'.
Qed.

Lemma mutual_exclusion_witness :
  let tasks0 := [Ready "job" "42" 5000; Ready "job" "42" 5000; Ready "job" "42" 0] in
  let trace := [Resume 1; Resume 0; Resume 2; Advance 100; Resume 2; Resume 0]%nat in
  let s := sys_run trace (mkSystem 0 ∅ tasks0) in
  Forall is_ready tasks0
  /\ tasks s = [Waiting "job" "42" 5000 0;
                Settled "job" "42" (Returned true);
                Settled "job" "42" (Thrown (mkError timeout_message))]
  /\ (forall i j ti tj key,
        tasks s !! i = Some ti -> tasks s !! j = Some tj ->
        holds key ti -> holds key tj -> i = j).
Proof.
  intros tasks0 trace s.
  assert (Hr : Forall is_ready tasks0) by (repeat constructor).
  split; [exact Hr |]. split; [vm_compute; reflexivity |].
  destruct (mutual_exclusion 0 ∅ tasks0 trace Hr) as (_ & _ & H & _).
  exact H.
Defined.

(** ** The middleware *)

Lemma includes_lockedMethods x :
  includes lockedMethods x = true <->
  x = "PUT"%string \/ x = "DELETE"%string \/ x = "PATCH"%string.
Proof.
  unfold includes, lockedMethods. simpl.
  rewrite !orb_true_iff, !String.eqb_eq. intuition discriminate.
Qed.

Lemma truthy_Some v :
  truthy v = true <-> exists id, v = Some id /\ id <> ""%string.
Proof.
  destruct v as [id |]; simpl.
  - rewrite negb_true_iff, String.eqb_neq. split.
    + intros H. by exists id.
    + by intros (? & [= <-] & H).
  - split; [done |]. by intros (? & ? & _).
Qed.

Lemma middleware_skips rt intervals req res s :
  intercepts req = false ->
  concurrencyMiddleware rt intervals req res s = (s, res, Some (Next None)).
Proof.
  intros H. unfold concurrencyMiddleware. rewrite H. by destruct (params_id req).
Qed.

Lemma run_callback_spec cb (m : gmap string LockEntry) :
  run_callback cb m =
    match cb with ReleaseCallback rt rid => delete (_getLockKey rt rid) m end.
Proof. destruct cb. simpl. by rewrite releaseLock_spec. Qed.

(** Listeners only release: an absent key stays absent. *)
Lemma emit_listeners_None event (ls : list (string * Callback))
    (m : gmap string LockEntry) key :
  m !! key = None ->
  foldl (fun acc l => if String.eqb l.1 event then run_callback l.2 acc else acc)
        m ls !! key = None.
Proof.
  revert m. induction ls as [| [ev cb] ls IH]; intros m H; simpl; [done |].
  apply IH. destruct (String.eqb ev event); [| done].
  rewrite run_callback_spec. destruct cb. rewrite lookup_delete.
  by case_decide.
Qed.

Lemma emit_None event res (m : gmap string LockEntry) key :
  m !! key = None -> emit event res m !! key = None.
Proof. apply emit_listeners_None. Qed.

Lemma emit_all_None events res (m : gmap string LockEntry) key :
  m !! key = None -> emit_all events res m !! key = None.
Proof.
  revert m. induction events as [| ev events IH]; intros m H; simpl; [done |].
  apply IH. by apply emit_None.
Qed.

Lemma emit_on event ev cb res (m : gmap string LockEntry) :
  emit event (on ev cb res) m =
    if String.eqb ev event then run_callback cb (emit event res m)
    else emit event res m.
Proof. unfold emit, on. simpl. by rewrite foldl_app. Qed.

(** The hook registered by the middleware runs on ['finish']. *)
Lemma emit_finish_releases rt rid res (m : gmap string LockEntry) :
  emit "finish" (after_acquire rt rid res).1 m !! _getLockKey rt rid = None.
Proof.
  unfold after_acquire. simpl. rewrite emit_on. simpl.
  rewrite releaseLock_spec. simpl. apply lookup_delete_eq.
Qed.

(** On any other event it does not run. *)
Lemma emit_other_ignores event rt rid res (m : gmap string LockEntry) :
  event <> "finish"%string ->
  emit event (after_acquire rt rid res).1 m = emit event res m.
Proof.
  intros H. unfold after_acquire. simpl. rewrite emit_on.
  destruct (String.eqb_spec "finish" event); [congruence | done].
Qed.

Lemma emit_all_finish_releases events rt rid res (m : gmap string LockEntry) :
  In "finish"%string events ->
  emit_all events (after_acquire rt rid res).1 m !! _getLockKey rt rid = None.
Proof.
  revert m. induction events as [| ev events IH]; intros m Hin; [done |].
  simpl. destruct Hin as [-> | Hin].
  - apply emit_all_None. apply emit_finish_releases.
  - by apply IH.
Qed.

(** Against a key that stays held the call throws the timeout error. *)
Lemma acquireLock_held_throws rt rid maxWaitTime jitter intervals s :
  0 <= maxWaitTime -> 0 <= jitter ->
  is_Some (locks s !! _getLockKey rt rid) ->
  Forall (timer_fires jitter) intervals ->
  Forall (keeps_held (_getLockKey rt rid)) intervals ->
  maxWaitTime < 100 * Z.of_nat (length intervals) ->
  exists s',
    acquireLock intervals rt rid maxWaitTime s =
      (s', Some (Thrown (mkError timeout_message)))
    /\ is_Some (locks s' !! _getLockKey rt rid).
Proof.
  intros HM Hj Hheld Htimer Hkeep Hlen. unfold acquireLock.
  destruct (acquire_loop_times_out
              (fun s' => is_Some (locks s' !! _getLockKey rt rid))
              rt rid (now s) maxWaitTime jitter (fun _ H => H) intervals s)
    as (s' & Hrun & Hs' & _); try done; try lia.
  - apply Forall_forall. intros evs Hin s1 Hs1 _.
    rewrite Forall_forall in Htimer. rewrite Forall_forall in Hkeep.
    destruct (Htimer evs Hin) as [_ Hd]. split; [| done].
    apply has_true, Hkeep; [done |]. by apply has_true.
  - by exists s'.
Qed.

(** What the middleware does once [acquireLock] has settled. *)
Lemma middleware_acquired rt intervals req res s id s' b :
  params_id req = Some id -> intercepts req = true ->
  acquireLock intervals rt id defaultMaxWaitTime s = (s', Some (Returned b)) ->
  concurrencyMiddleware rt intervals req res s =
    (s', on "finish" (ReleaseCallback rt id) res, Some (Next None)).
Proof.
  intros Hid Hi Ha. unfold concurrencyMiddleware. by rewrite Hid, Hi, Ha.
Qed.

Lemma middleware_thrown rt intervals req res s id s' e :
  params_id req = Some id -> intercepts req = true ->
  acquireLock intervals rt id defaultMaxWaitTime s = (s', Some (Thrown e)) ->
  concurrencyMiddleware rt intervals req res s =
    (s', (on_error e res).1, Some (on_error e res).2).
Proof.
  intros Hid Hi Ha. unfold concurrencyMiddleware. rewrite Hid, Hi, Ha.
  by destruct (on_error e res).
Qed.

(** A call that returns has written its entry. *)
Lemma acquire_loop_returned intervals rt rid start maxWait s s' b :
  acquire_loop intervals rt rid start maxWait s = (s', Some (Returned b)) ->
  b = true /\ is_Some (locks s' !! _getLockKey rt rid).
Proof.
  revert s. induction intervals as [| evs rest IH]; intros s; simpl;
    destruct (acquire_check_cases rt rid start maxWait (now s) (locks s))
      as [[_ ->] | [_ (p & -> & [-> | ->])]]; try done.
  - intros [= <- <-]. simpl. rewrite lookup_insert_eq. eauto.
  - intros [= <- <-]. simpl. rewrite lookup_insert_eq. eauto.
  - apply IH.
Qed.

(** When the middleware hands over to the wrapped handler of an
    intercepted request, it holds the lock and has registered the hook. *)
Lemma middleware_next_inv rt intervals req res s s' res' :
  intercepts req = true ->
  concurrencyMiddleware rt intervals req res s = (s', res', Some (Next None)) ->
  exists id, params_id req = Some id
    /\ res' = (after_acquire rt id res).1
    /\ is_Some (locks s' !! _getLockKey rt id).
Proof.
  intros Hi. unfold concurrencyMiddleware. rewrite Hi.
  destruct (params_id req) as [id |] eqn:Hid.
  2: { unfold intercepts in Hi. by rewrite Hid in Hi. }
  destruct (acquireLock intervals rt id defaultMaxWaitTime s) as [s1 [[b | e] |]] eqn:Ha.
  - simpl. intros [= <- <-]. exists id. split; [done |]. split; [done |].
    by apply acquire_loop_returned in Ha as [_ Ha].
  - unfold on_error. destruct (String.eqb (message e) timeout_message); done.
  - done.
Qed.

(** C7. The middleware goes for the lock exactly when [req.params.id] is a
    non-empty string and the method is PUT, DELETE or PATCH.  Every other
    request (GET in particular, and any request without an id) is handed
    to [next()] at once: the clock, the table and the response are left as
    they were, whatever the table holds.  An intercepted request whose key
    is free takes the lock and registers the release hook before calling
    [next()]. *)
Theorem middleware_filter rt intervals req res s :
  (intercepts req = true <->
     (method req = "PUT" \/ method req = "DELETE" \/ method req = "PATCH")%string
     /\ exists id, params_id req = Some id /\ id <> ""%string)
  /\ (intercepts req = false ->
        concurrencyMiddleware rt intervals req res s = (s, res, Some (Next None)))
  /\ (method req = "GET"%string ->
        concurrencyMiddleware rt intervals req res s = (s, res, Some (Next None)))
  /\ (params_id req = None ->
        concurrencyMiddleware rt intervals req res s = (s, res, Some (Next None)))
  /\ (forall id,
        intercepts req = true -> params_id req = Some id ->
        locks s !! _getLockKey rt id = None ->
        concurrencyMiddleware rt intervals req res s =
          (mkState (now s)
             (<[_getLockKey rt id := mkLockEntry (now s) rt id]> (locks s)),
           on "finish" (ReleaseCallback rt id) res,
           Some (Next None))).
Proof.
  split; [| split; [| split; [| split]]].
  - unfold intercepts. rewrite andb_true_iff, truthy_Some, includes_lockedMethods.
    tauto.
  - apply middleware_skips.
  - intros Hm. apply middleware_skips. unfold intercepts. rewrite Hm.
    apply andb_false_r.
  - intros Hid. apply middleware_skips. unfold intercepts. by rewrite Hid.
  - intros id Hi Hid Hfree.
    apply (middleware_acquired _ _ _ _ _ id _ true); [done | done |].
    unfold acquireLock. by apply acquire_loop_free.
Qed.

(** C8. The [catch] block answers 409 with the message that the resource
    is being modified by another request, and does not call [next], when
    the error carries the message of the lock timeout; any other error is
    passed to [next(error)] with the response untouched.  So an intercepted
    request whose [acquireLock] throws ends that way, and one whose key
    stays held is answered 409 without the wrapped handler being called and
    without a hook being registered. *)
Theorem middleware_failure rt intervals req res s :
  (forall e, message e = timeout_message ->
     on_error e res =
       (mkResponse 409 (Some [("error", conflict_message)]%string) (listeners res),
        Answered))
  /\ (forall e, message e <> timeout_message ->
        on_error e res = (res, Next (Some e)))
  /\ (forall id s' e,
        params_id req = Some id -> intercepts req = true ->
        acquireLock intervals rt id defaultMaxWaitTime s = (s', Some (Thrown e)) ->
        concurrencyMiddleware rt intervals req res s =
          (s', (on_error e res).1, Some (on_error e res).2))
  /\ (forall id jitter,
        params_id req = Some id -> intercepts req = true ->
        0 <= jitter ->
        isLocked rt id (locks s) = true ->
        Forall (timer_fires jitter) intervals ->
        Forall (keeps_held (_getLockKey rt id)) intervals ->
        defaultMaxWaitTime < 100 * Z.of_nat (length intervals) ->
        exists s',
          concurrencyMiddleware rt intervals req res s =
            (s',
             mkResponse 409 (Some [("error", conflict_message)]%string) (listeners res),
             Some Answered)
          /\ isLocked rt id (locks s') = true).
Proof.
  split; [| split; [| split]].
  - intros e He. unfold on_error. by rewrite He, String.eqb_refl.
  - intros e He. unfold on_error. apply String.eqb_neq in He. by rewrite He.
  - intros id s' e. apply middleware_thrown.
  - intros id jitter Hid Hi Hj Hheld Htimer Hkeep Hlen.
    destruct (acquireLock_held_throws rt id defaultMaxWaitTime jitter intervals s)
      as (s' & Hrun & Hh); try done.
    { by apply has_true. }
    exists s'. split; [| by apply has_true].
    by rewrite (middleware_thrown _ _ _ _ _ id s' _ Hid Hi Hrun).
Qed.

(** C3 as stated fails on an aborted connection: a PUT for job 42 takes
    the lock and reaches the handler; the connection is torn down before a
    response is sent, the platform emits ['close'] only, the hook registered
    for ['finish'] does not run, and the entry is still in the table. *)
Lemma aborted_request_keeps_lock :
  let req := mkRequest "PUT" (Some "42"%string) in
  let res := mkResponse 200 None [] in
  exists s' res',
    concurrencyMiddleware "job" [] req res (mkState 0 ∅) = (s', res', Some (Next None))
    /\ isLocked "job" "42" (locks s') = true
    /\ isLocked "job" "42" (complete ConnectionAborted res' (locks s')) = true.
Proof.
  eexists _, _. split; [vm_compute; reflexivity |].
  split; vm_compute; reflexivity.
Qed.

(** C3, amended. When the middleware has taken the lock and called
    [next()], it holds the entry and has registered the release on the
    response's ['finish'] event.  Whenever the response lifecycle emits
    ['finish'] (a success body or an error body was sent), no entry for the
    key is left afterwards, whatever the table held.  When the connection
    is aborted before a response was sent, the hook does not run: the
    lifecycle does to the table what it would have done without the
    middleware. *)
Theorem release_on_finish rt intervals req res s s' res' :
  intercepts req = true ->
  concurrencyMiddleware rt intervals req res s = (s', res', Some (Next None)) ->
  exists id, params_id req = Some id
    /\ isLocked rt id (locks s') = true
    /\ listeners res' = listeners res ++ [("finish"%string, ReleaseCallback rt id)]
    /\ (forall status m, isLocked rt id (complete (BodySent status) res' m) = false)
    /\ (forall events m,
          In "finish"%string events -> isLocked rt id (emit_all events res' m) = false)
    /\ (forall m, complete ConnectionAborted res' m = complete ConnectionAborted res m).
Proof.
  intros Hi Hrun.
  destruct (middleware_next_inv _ _ _ _ _ _ _ Hi Hrun) as (id & Hid & -> & Hheld).
  exists id. split; [done |]. split; [by apply has_true |]. split; [done |].
  split; [| split].
  - intros status m. apply has_false. unfold complete.
    apply emit_all_finish_releases. simpl. auto.
  - intros events m Hin. apply has_false. by apply emit_all_finish_releases.
  - intros m. unfold complete, emit_all, lifecycle_events. cbn [foldl].
    by apply emit_other_ignores.
Qed.

Lemma release_on_finish_witness :
  let req := mkRequest "PUT" (Some "42"%string) in
  let res := mkResponse 200 None [] in
  let s' := mkState 0 {[ "job:42"%string := mkLockEntry 0 "job" "42" ]} in
  let res' := mkResponse 200 None [("finish"%string, ReleaseCallback "job" "42")] in
  intercepts req = true
  /\ concurrencyMiddleware "job" [] req res (mkState 0 ∅) = (s', res', Some (Next None))
  /\ exists id, params_id req = Some id
       /\ forall status m, isLocked "job" id (complete (BodySent status) res' m) = false.
Proof.
  intros req res s' res'.
  assert (Hi : intercepts req = true) by reflexivity.
  assert (Hrun : concurrencyMiddleware "job" [] req res (mkState 0 ∅) =
                 (s', res', Some (Next None))) by (vm_compute; reflexivity).
  split; [exact Hi |]. split; [exact Hrun |].
  destruct (release_on_finish "job" [] req res (mkState 0 ∅) s' res' Hi Hrun)
    as (id & Hid & _ & _ & Hsent & _).
  exists id. split; [exact Hid | exact Hsent].
Defined.

(** * Further properties of the lock manager *)

(** X1. Taking a free lock and releasing it is a round trip: on a key
    that is free, [acquireLock] returns [true] at once, without the clock
    moving, and the [releaseLock] that follows returns [true] and leaves
    the table exactly as it was before the call. *)
Theorem acquire_release_roundtrip intervals rt rid maxWaitTime s :
  locks s !! _getLockKey rt rid = None ->
  exists s',
    acquireLock intervals rt rid maxWaitTime s = (s', Some (Returned true))
    /\ now s' = now s
    /\ isLocked rt rid (locks s') = true
    /\ releaseLock rt rid (locks s') = (locks s, true).
Proof.
  intros Hfree. unfold acquireLock. rewrite acquire_loop_free by done.
  eexists. split; [done |]. simpl. split; [done |].
  unfold isLocked. rewrite has_insert, decide_True by done. split; [done |].
  rewrite releaseLock_spec, has_insert, decide_True by done.
  by rewrite delete_insert_id.
Qed.

Lemma acquire_release_roundtrip_witness :
  let s := mkState 7 {[ "pad:3"%string := mkLockEntry 1 "pad" "3" ]} in
  locks s !! _getLockKey "job" "42" = None
  /\ exists s',
       acquireLock [] "job" "42" 5000 s = (s', Some (Returned true))
       /\ now s' = now s
       /\ isLocked "job" "42" (locks s') = true
       /\ releaseLock "job" "42" (locks s') = (locks s, true).
Proof.
  intros s.
  assert (H : locks s !! _getLockKey "job" "42" = None) by reflexivity.
  split; [exact H |].
  exact (acquire_release_roundtrip [] "job" "42" 5000 s H).
Defined.

(** X2. A check of [acquireLock] never replaces or removes an entry: every
    entry of the table is still there, unchanged, after the check (a held
    lock keeps the timestamp of its acquisition however many calls poll
    it), and the entries of all keys but the call's own are as before. *)
Theorem acquire_check_preserves_entries rt rid startTime maxWaitTime t
    (m : gmap string LockEntry) :
  m ⊆ (acquire_check rt rid startTime maxWaitTime t m).1
  /\ (forall key, key <> _getLockKey rt rid ->
        (acquire_check rt rid startTime maxWaitTime t m).1 !! key = m !! key).
Proof.
  destruct (acquire_check_cases rt rid startTime maxWaitTime t m)
    as [[Hfree ->] | [_ (p & -> & _)]]; simpl.
  - split; [by apply insert_subseteq |].
    intros key Hne. by rewrite lookup_insert_ne.
  - done.
Qed.

(** X3. When [acquireLock] returns, it returns [true], and the entry it
    left under its key carries the resource type, the resource id and, as
    timestamp, the time of the successful check (not the time of the
    call). *)
Theorem acquired_entry_records_time intervals rt rid maxWaitTime s s' b :
  acquireLock intervals rt rid maxWaitTime s = (s', Some (Returned b)) ->
  b = true
  /\ locks s' !! _getLockKey rt rid = Some (mkLockEntry (now s') rt rid).
Proof.
  unfold acquireLock. generalize (now s) at 1. intros start. revert s.
  induction intervals as [| evs rest IH]; intros s; simpl;
    destruct (acquire_check_cases rt rid start maxWaitTime (now s) (locks s))
      as [[_ ->] | [_ (p & -> & [-> | ->])]]; try done.
  - intros [= <- <-]. simpl. by rewrite lookup_insert_eq.
  - intros [= <- <-]. simpl. by rewrite lookup_insert_eq.
  - apply IH.
Qed.

Lemma acquired_entry_records_time_witness :
  let s := mkState 0 {[ "job:42"%string := mkLockEntry 0 "job" "42" ]} in
  let intervals := [[Tick 100]; [Tick 30; Release "job" "42"; Tick 70]] in
  acquireLock intervals "job" "42" 5000 s =
    (mkState 200 {[ "job:42"%string := mkLockEntry 200 "job" "42" ]},
     Some (Returned true))
  /\ true = true
  /\ ({[ "job:42"%string := mkLockEntry 200 "job" "42" ]} : gmap string LockEntry)
       !! _getLockKey "job" "42" = Some (mkLockEntry 200 "job" "42").
Proof.
  intros s intervals.
  assert (H : acquireLock intervals "job" "42" 5000 s =
              (mkState 200 {[ "job:42"%string := mkLockEntry 200 "job" "42" ]},
               Some (Returned true))) by (vm_compute; reflexivity).
  split; [exact H |].
  exact (acquired_entry_records_time intervals "job" "42" 5000 s _ true H).
Defined.

Lemma run_intervals_cons evs rest s :
  run_intervals (evs :: rest) s = run_intervals rest (run_events evs s).
Proof. reflexivity. Qed.

(** While the key stays held and the deadline is not reached, the loop
    sleeps through the intervals. *)
Lemma acquire_loop_sleeps_through rt rid start maxWait jitter pre rest s :
  0 <= jitter ->
  is_Some (locks s !! _getLockKey rt rid) ->
  Forall (timer_fires jitter) pre ->
  Forall (keeps_held (_getLockKey rt rid)) pre ->
  now s - start + (100 + jitter) * Z.of_nat (length pre) <= maxWait ->
  acquire_loop (pre ++ rest) rt rid start maxWait s =
    acquire_loop rest rt rid start maxWait (run_intervals pre s)
  /\ is_Some (locks (run_intervals pre s) !! _getLockKey rt rid)
  /\ now (run_intervals pre s) - start <= maxWait.
Proof.
  intros Hj. revert s.
  induction pre as [| evs pre IH]; intros s Hheld Htimer Hkeep Hlen.
  - simpl in *. split; [done |]. split; [done | lia].
  - apply Forall_cons in Htimer as [[Hfw Hd] Htimer].
    apply Forall_cons in Hkeep as [Hk Hkeep].
    rewrite length_cons in Hlen.
    rewrite <- app_comm_cons, run_intervals_cons.
    rewrite acquire_loop_sleep; [| done | lia].
    apply IH; try done.
    + apply has_true, Hk. by apply has_true.
    + rewrite run_events_now. lia.
Qed.

(** X4. Eventual acquisition: if the key stays held for some sleeps of the
    call, the last of them still starting within [maxWaitTime], and is free
    when the next sleep ends (the holder released in time), the call
    returns [true] at that wake-up and writes its entry with that time. *)
Theorem eventual_acquisition rt rid maxWaitTime jitter pre evs rest s :
  0 <= jitter ->
  isLocked rt rid (locks s) = true ->
  Forall (timer_fires jitter) pre ->
  Forall (keeps_held (_getLockKey rt rid)) pre ->
  (100 + jitter) * Z.of_nat (length pre) <= maxWaitTime ->
  isLocked rt rid (locks (run_events evs (run_intervals pre s))) = false ->
  let s1 := run_events evs (run_intervals pre s) in
  acquireLock (pre ++ evs :: rest) rt rid maxWaitTime s =
    (mkState (now s1)
       (<[_getLockKey rt rid := mkLockEntry (now s1) rt rid]> (locks s1)),
     Some (Returned true)).
Proof.
  intros Hj Hheld Htimer Hkeep Hlen Hfree s1. unfold acquireLock, isLocked in *.
  apply has_true in Hheld. apply has_false in Hfree.
  destruct (acquire_loop_sleeps_through rt rid (now s) maxWaitTime jitter
              pre (evs :: rest) s) as (-> & Hh & Hle); try done; [lia |].
  rewrite acquire_loop_sleep by done.
  by rewrite acquire_loop_free.
Qed.

Lemma eventual_acquisition_witness :
  let s := mkState 0 {[ "job:42"%string := mkLockEntry 0 "job" "42" ]} in
  acquireLock ([[Tick 100]; [Tick 110]] ++ [Tick 30; Release "job" "42"; Tick 70] :: [])
    "job" "42" 300 s =
    (mkState 310 {[ "job:42"%string := mkLockEntry 310 "job" "42" ]},
     Some (Returned true)).
Proof.
  intros s.
  pose proof (eventual_acquisition "job" "42" 300 10 [[Tick 100]; [Tick 110]]
                [Tick 30; Release "job" "42"; Tick 70] [] s) as H.
  rewrite H.
  - vm_compute. reflexivity.
  - lia.
  - reflexivity.
  - repeat constructor; simpl; lia.
  - repeat constructor; intros s' Hs'; exact Hs'.
  - simpl. lia.
  - vm_compute. reflexivity.
Defined.

(** X5. The deadline is tested with [>] and only after a check that found
    the key held, at a time measured from the call itself.  So on a held
    key the first check throws exactly when [maxWaitTime] is negative; with
    [maxWaitTime >= 0], and with [maxWaitTime = 0] too, the call sleeps at
    least once before it can fail, and a later check still sleeps when the
    elapsed time equals [maxWaitTime]. *)
Theorem deadline_is_strict rt rid maxWaitTime s :
  isLocked rt rid (locks s) = true ->
  (maxWaitTime < 0 ->
     forall intervals,
       acquireLock intervals rt rid maxWaitTime s =
         (s, Some (Thrown (mkError timeout_message))))
  /\ (0 <= maxWaitTime ->
        acquireLock [] rt rid maxWaitTime s = (s, None)
        /\ forall evs rest,
             acquireLock (evs :: rest) rt rid maxWaitTime s =
               acquire_loop rest rt rid (now s) maxWaitTime (run_events evs s))
  /\ (forall startTime intervals,
        now s - startTime = maxWaitTime ->
        acquire_loop intervals rt rid startTime maxWaitTime s =
          match intervals with
          | [] => (s, None)
          | evs :: rest =>
              acquire_loop rest rt rid startTime maxWaitTime (run_events evs s)
          end).
Proof.
  intros Hheld. apply has_true in Hheld. unfold acquireLock.
  split; [| split].
  - intros Hneg intervals. apply acquire_loop_late; [done | lia].
  - intros Hpos. split.
    + simpl. rewrite acquire_check_held by done.
      destruct (Z.gtb_spec (now s - now s) maxWaitTime); [lia |].
      by rewrite state_eta.
    + intros evs rest. apply acquire_loop_sleep; [done | lia].
  - intros startTime [| evs rest] Heq.
    + simpl. rewrite acquire_check_held by done.
      destruct (Z.gtb_spec (now s - startTime) maxWaitTime); [lia |].
      by rewrite state_eta.
    + apply acquire_loop_sleep; [done | lia].
Qed.

Lemma deadline_is_strict_witness :
  let s := mkState 0 {[ "job:42"%string := mkLockEntry 0 "job" "42" ]} in
  acquireLock [] "job" "42" 0 s = (s, None)
  /\ acquireLock [] "job" "42" (-1) s = (s, Some (Thrown (mkError timeout_message))).
Proof.
  intros s.
  destruct (deadline_is_strict "job" "42" 0 s) as (_ & H0 & _); [reflexivity |].
  destruct (deadline_is_strict "job" "42" (-1) s) as (Hneg & _); [reflexivity |].
  split.
  - apply H0. lia.
  - apply Hneg. lia.
Defined.

(** X6. Sweeps compose: a sweep only removes entries (what is left is a
    part of the table, entry for entry), and a sweep at [t1] followed by a
    sweep at [t2] leaves what a single sweep at the later of the two times
    leaves; in particular sweeping twice at the same time changes nothing
    more. *)
Theorem cleanup_compose t1 t2 (m : gmap string LockEntry) :
  cleanupStaleLocks t1 m ⊆ m
  /\ cleanupStaleLocks t2 (cleanupStaleLocks t1 m) =
       cleanupStaleLocks (Z.max t1 t2) m
  /\ cleanupStaleLocks t1 (cleanupStaleLocks t1 m) = cleanupStaleLocks t1 m.
Proof.
  assert (Hcomp : forall a b,
            cleanupStaleLocks b (cleanupStaleLocks a m) =
              cleanupStaleLocks (Z.max a b) m).
  { intros a b. apply map_eq. intros key. rewrite !cleanup_lookup.
    destruct (m !! key) as [e |]; [| done].
    destruct (Z.gtb_spec (a - timestamp e) maxAge);
      destruct (Z.gtb_spec (Z.max a b - timestamp e) maxAge); try lia; try done.
    - destruct (Z.gtb_spec (b - timestamp e) maxAge); [done | lia].
    - destruct (Z.gtb_spec (b - timestamp e) maxAge); [lia | done]. }
  split; [| split].
  - apply map_subseteq_spec. intros key e. rewrite cleanup_lookup.
    destruct (m !! key) as [e' |]; [| done].
    by destruct (t1 - timestamp e' >? maxAge).
  - apply Hcomp.
  - by rewrite Hcomp, Z.max_id.
Qed.

Lemma sweeps_keep loaded n (m : gmap string LockEntry) key e :
  m !! key = Some e ->
  sweep_tick loaded n - timestamp e <= maxAge ->
  sweeps loaded n m !! key = Some e.
Proof.
  intros He. induction n as [| n IH]; intros Hage; [done |].
  simpl. apply cleanup_keeps; [| done].
  apply IH. unfold sweep_tick, sweepPeriod in *. lia.
Qed.

(** X7. An abandoned lock is reclaimed by the first run of the sweep at
    which it is older than 30000ms.  With the sweep running every 60000ms
    and nothing else touching the entry, an entry written after the module
    was loaded survives every earlier run and is removed by run number
    [(timestamp + 30000 - loaded) / 60000 + 1], when its age is above 30000
    and at most 90000. *)
Theorem abandoned_lock_reclaimed loaded (m : gmap string LockEntry) key e :
  m !! key = Some e ->
  loaded <= timestamp e ->
  let n := Z.to_nat ((timestamp e + maxAge - loaded) / sweepPeriod) in
  (forall k, (k <= n)%nat -> sweeps loaded k m !! key = Some e)
  /\ sweeps loaded (S n) m !! key = None
  /\ maxAge < sweep_tick loaded (S n) - timestamp e <= maxAge + sweepPeriod.
Proof.
  intros He Hload n.
  assert (Hq : 0 <= (timestamp e + maxAge - loaded) / sweepPeriod).
  { apply Z.div_pos; unfold maxAge, sweepPeriod; lia. }
  pose proof (Z.div_mod (timestamp e + maxAge - loaded) sweepPeriod) as Hdm.
  pose proof (Z.mod_pos_bound (timestamp e + maxAge - loaded) sweepPeriod) as Hmb.
  unfold sweepPeriod in Hdm, Hmb, Hq.
  assert (Hn : Z.of_nat n = (timestamp e + maxAge - loaded) / 60000).
  { unfold n, sweepPeriod. by rewrite Z2Nat.id. }
  assert (Hbound : maxAge < sweep_tick loaded (S n) - timestamp e <= maxAge + sweepPeriod).
  { unfold sweep_tick, sweepPeriod. rewrite Nat2Z.inj_succ, Hn. lia. }
  split; [| split; [| done]].
  - intros k Hk. apply sweeps_keep; [done |].
    unfold sweep_tick, sweepPeriod.
    assert (Z.of_nat k <= Z.of_nat n) by lia. rewrite Hn in *. lia.
  - simpl. apply (cleanup_removes _ _ _ e); [| lia].
    apply sweeps_keep; [done |].
    unfold sweep_tick, sweepPeriod. rewrite Hn. lia.
Qed.

Lemma abandoned_lock_reclaimed_witness :
  let e := mkLockEntry 45000 "job" "42" in
  let m : gmap string LockEntry := {[ "job:42"%string := e ]} in
  sweeps 0 1 m !! "job:42"%string = Some e
  /\ sweeps 0 2 m !! "job:42"%string = None
  /\ maxAge < sweep_tick 0 2 - 45000 <= maxAge + sweepPeriod.
Proof.
  intros e m.
  destruct (abandoned_lock_reclaimed 0 m "job:42"%string e) as (Hk & Hgone & Hb).
  - reflexivity.
  - simpl. lia.
  - split; [| split].
    + apply (Hk 1%nat). vm_compute. lia.
    + exact Hgone.
    + exact Hb.
Defined.

(** X8. A locked request is a round trip on the table: an intercepted
    request whose key is free is handed to [next()] at once, holding the
    lock; when its response has been sent, the table is exactly what it was
    before the request (on a response with no earlier listeners). *)
Theorem middleware_request_roundtrip rt intervals req res s id status :
  intercepts req = true ->
  params_id req = Some id ->
  locks s !! _getLockKey rt id = None ->
  listeners res = [] ->
  exists s' res',
    concurrencyMiddleware rt intervals req res s = (s', res', Some (Next None))
    /\ now s' = now s
    /\ isLocked rt id (locks s') = true
    /\ statusCode res' = statusCode res /\ sent res' = sent res
    /\ complete (BodySent status) res' (locks s') = locks s.
Proof.
  intros Hi Hid Hfree Hnil.
  rewrite (middleware_acquired rt intervals req res s id
             (mkState (now s)
                (<[_getLockKey rt id := mkLockEntry (now s) rt id]> (locks s)))
             true Hid Hi)
    by (unfold acquireLock; by apply acquire_loop_free).
  eexists _, _. split; [done |]. simpl. split; [done |].
  unfold isLocked. rewrite has_insert, decide_True by done.
  do 3 (split; [done |]).
  unfold complete, emit_all, lifecycle_events, emit. simpl. rewrite Hnil. simpl.
  rewrite releaseLock_spec. simpl. by rewrite delete_insert_id.
Qed.

Lemma middleware_request_roundtrip_witness :
  let req := mkRequest "DELETE" (Some "7"%string) in
  let res := mkResponse 200 None [] in
  let s := mkState 5 {[ "pad:7"%string := mkLockEntry 1 "pad" "7" ]} in
  exists s' res',
    concurrencyMiddleware "job" [] req res s = (s', res', Some (Next None))
    /\ now s' = now s
    /\ isLocked "job" "7" (locks s') = true
    /\ statusCode res' = statusCode res /\ sent res' = sent res
    /\ complete (BodySent 204) res' (locks s') = locks s.
Proof.
  intros req res s.
  apply (middleware_request_roundtrip "job" [] req res s "7" 204); reflexivity.
Defined.

(** * Related-data updates *)

Lemma get_insert {V} (undefined : V) (o : gmap string V) f g v :
  Relationships.get undefined (<[f := v]> o) g =
    if decide (f = g) then v else Relationships.get undefined o g.
Proof.
  unfold Relationships.get. rewrite lookup_insert. by case_decide.
Qed.

Lemma rename_pad_idem {V} `{EqDecision V} (undefined : V) id updates operator job :
  Relationships.rename_pad undefined id updates operator
    (Relationships.rename_pad undefined id updates operator job) =
  Relationships.rename_pad undefined id updates operator job.
Proof.
  unfold Relationships.rename_pad.
  destruct (decide (Relationships.get undefined job "pad_id" = id)) as [Hid | Hid].
  - rewrite !get_insert. simpl. rewrite decide_True by done.
    destruct operator as [o |].
    + apply map_eq. intros f. rewrite !lookup_insert.
      repeat case_decide; done.
    + apply map_eq. intros f. rewrite !lookup_insert.
      repeat case_decide; done.
  - by rewrite decide_False.
Qed.

Lemma rename_pad_other_fields {V} `{EqDecision V} (undefined : V)
    id updates operator job f :
  f <> "pad_name"%string -> f <> "operator_name"%string ->
  Relationships.rename_pad undefined id updates operator job !! f = job !! f.
Proof.
  intros H1 H2. unfold Relationships.rename_pad. case_decide; [| done].
  by rewrite !lookup_insert_ne.
Qed.

(** X9. Renaming a pad, [updateRelatedData('pad', id, updates)]: every job
    comes back, in the same order.  A job of another pad is returned as it
    is; a job of this pad keeps every property except [pad_name] and
    [operator_name], and its [pad_name] is [updates.name].  When no pad has
    the id, the jobs are returned unchanged.  Applying the update to its
    own result changes nothing. *)
Theorem updateRelatedData_pad {V} `{EqDecision V} (undefined : V) id updates
    (jobs pads operators : list (gmap string V)) :
  exists result,
    Relationships.updateRelatedData undefined "pad" id updates jobs pads operators
      = Some result
    /\ length result = length jobs
    /\ (forall (i : nat) job, jobs !! i = Some job ->
          exists job', result !! i = Some job'
            /\ (Relationships.get undefined job "pad_id" <> id -> job' = job)
            /\ (forall f, f <> "pad_name"%string -> f <> "operator_name"%string ->
                  job' !! f = job !! f)
            /\ (Relationships.get undefined job "pad_id" = id ->
                (exists pad, In pad pads /\ Relationships.get undefined pad "id" = id) ->
                Relationships.get undefined job' "pad_name" =
                  Relationships.get undefined updates "name"))
    /\ ((forall pad, In pad pads -> Relationships.get undefined pad "id" <> id) ->
          result = jobs)
    /\ Relationships.updateRelatedData undefined "pad" id updates result pads operators
         = Some result.
Proof.
  unfold Relationships.updateRelatedData. simpl.
  destruct (List.find _ pads) as [pad |] eqn:Hfind.
  - eexists. split; [done |]. split; [by rewrite length_map |].
    split; [| split].
    + intros i job Hi. eexists. rewrite list_lookup_fmap, Hi. simpl.
      split; [done |]. split; [| split].
      * intros Hne. unfold Relationships.rename_pad. by rewrite decide_False.
      * intros f. apply rename_pad_other_fields.
      * intros Heq _. unfold Relationships.rename_pad.
        rewrite decide_True by done. by rewrite !get_insert.
    + intros Hnone. apply find_some in Hfind as [Hin Hb].
      apply bool_decide_eq_true in Hb. by apply Hnone in Hin.
    + f_equal. rewrite <- list_fmap_compose. apply list_fmap_ext.
      intros i job _. simpl. apply rename_pad_idem.
  - exists jobs. split; [done |]. split; [done |]. split; [| done].
    intros i job Hi. exists job. split; [done |]. split; [done |].
    split; [done |].
    intros _ (pad & Hin & Hid).
    eapply find_none in Hfind; [| exact Hin].
    apply bool_decide_eq_false in Hfind. done.
Qed.

Lemma rename_operator_idem {V} (undefined : V) updates (job : gmap string V) :
  Relationships.rename_operator undefined updates
    (Relationships.rename_operator undefined updates job) =
  Relationships.rename_operator undefined updates job.
Proof. unfold Relationships.rename_operator. apply insert_insert_eq. Qed.

Lemma filter_all_true {A} (f : A -> bool) (l : list A) :
  (forall x, In x l -> f x = true) -> List.filter f l = l.
Proof.
  induction l as [| a l IH]; intros H; simpl; [done |].
  rewrite (H a) by (by left). f_equal. apply IH. intros x Hx. apply H. by right.
Qed.

Lemma filter_drops {A} (f : A -> bool) (l : list A) x :
  In x l -> f x = false -> (length (List.filter f l) < length l)%nat.
Proof.
  induction l as [| a l IH]; intros Hin Hf; [done |].
  pose proof (List.filter_length_le f l) as Hle. simpl.
  destruct Hin as [-> | Hin].
  - rewrite Hf. lia.
  - specialize (IH Hin Hf). destruct (f a); simpl; lia.
Qed.

(** X10. Renaming an operator, [updateRelatedData('operator', id,
    updates)]: the result holds exactly the jobs on a pad of that operator
    (a pad whose [operator_id] is the id and whose [id] is the job's
    [pad_id]), each with [operator_name] set to [updates.name]; unlike the
    pad case, jobs of other operators are not part of the result, so the
    result is shorter than the job list as soon as one job is on no pad of
    the operator.  Applying the update to its own result changes
    nothing. *)
Theorem updateRelatedData_operator {V} `{EqDecision V} (undefined : V) id updates
    (jobs pads operators : list (gmap string V)) :
  let on_operator_pad := fun job : gmap string V =>
    exists pad, In pad pads
      /\ Relationships.get undefined pad "operator_id" = id
      /\ Relationships.get undefined pad "id" =
           Relationships.get undefined job "pad_id" in
  exists result,
    Relationships.updateRelatedData undefined "operator" id updates jobs pads operators
      = Some result
    /\ (forall job', In job' result <->
          exists job, In job jobs /\ on_operator_pad job
            /\ job' = Relationships.rename_operator undefined updates job)
    /\ (forall job', In job' result ->
          Relationships.get undefined job' "operator_name" =
            Relationships.get undefined updates "name")
    /\ (length result <= length jobs)%nat
    /\ (forall job, In job jobs -> ~ on_operator_pad job ->
          (length result < length jobs)%nat)
    /\ Relationships.updateRelatedData undefined "operator" id updates result
         pads operators = Some result.
Proof.
  intros on_operator_pad.
  unfold Relationships.updateRelatedData. simpl.
  set (operatorPads := List.filter _ pads).
  set (affected := fun j : gmap string V => existsb _ operatorPads).
  assert (Haff : forall j, affected j = true <-> on_operator_pad j).
  { intros j. unfold affected, on_operator_pad. rewrite existsb_exists. split.
    - intros (pad & Hin & Hb). apply filter_In in Hin as [Hin Hop].
      apply bool_decide_eq_true in Hb, Hop. by exists pad.
    - intros (pad & Hin & Hop & Hid). exists pad. split.
      + apply filter_In. split; [done |]. by apply bool_decide_eq_true.
      + by apply bool_decide_eq_true. }
  assert (Hren : forall j,
            affected (Relationships.rename_operator undefined updates j) = affected j).
  { intros j. unfold affected. f_equal.
    unfold Relationships.rename_operator. by rewrite get_insert. }
  eexists. split; [done |]. split; [| split; [| split; [| split]]].
  - intros job'. rewrite in_map_iff. split.
    + intros (job & <- & Hin). apply filter_In in Hin as [Hin Ha].
      exists job. split; [done |]. split; [by apply Haff | done].
    + intros (job & Hin & Hop & ->). exists job. split; [done |].
      apply filter_In. split; [done |]. by apply Haff.
  - intros job' Hin. apply in_map_iff in Hin as (job & <- & _).
    unfold Relationships.rename_operator. by rewrite get_insert.
  - rewrite length_map. apply List.filter_length_le.
  - intros job Hin Hnot. rewrite length_map.
    apply (filter_drops _ _ job); [done |].
    destruct (affected job) eqn:Ha; [| done]. by apply Haff in Ha.
  - f_equal. rewrite filter_all_true.
    + rewrite map_map. apply map_ext. intros j. apply rename_operator_idem.
    + intros j Hin. apply in_map_iff in Hin as (job & <- & Hin).
      rewrite Hren. by apply filter_In in Hin as [_ Ha].
Qed.

(** * Sequence ids *)

Lemma sorted_last_is_max (l : list Z) x :
  StronglySorted Z.le l -> last l = Some x -> forall y, y ∈ l -> y <= x.
Proof.
  intros Hs. revert x. induction Hs as [| a l Hs IH Ha]; intros x Hlast y Hy.
  - by apply elem_of_nil in Hy.
  - rewrite last_cons in Hlast. destruct (last l) as [z |] eqn:Hz.
    + injection Hlast as ->. apply elem_of_cons in Hy as [-> | Hy].
      * rewrite Forall_forall in Ha. apply Ha. by apply last_Some_elem_of.
      * by apply IH.
    + injection Hlast as ->. apply last_None in Hz. subst l.
      apply elem_of_cons in Hy as [-> | Hy]; [lia |].
      by apply elem_of_nil in Hy.
Qed.

Lemma find_gap_spec fuel i top (ids : list Z) :
  1 <= i ->
  Z.max 0 (top + 1 - i) < Z.of_nat fuel ->
  (forall j, 1 <= j < i -> j ∈ ids) ->
  (forall x, x ∈ ids -> x <= top) ->
  exists r, Sequence.find_gap fuel i top ids = Some r
    /\ ((r + 1) ∉ ids)
    /\ (forall j, 1 <= j <= r -> j ∈ ids).
Proof.
  revert i. induction fuel as [| fuel IH]; intros i Hi Hfuel Hbelow Htop.
  - simpl in Hfuel. lia.
  - simpl. destruct (Z.leb_spec i top) as [Hle | Hgt].
    + unfold Sequence.includes. case_bool_decide as Hin.
      * apply IH; [lia | lia | | done].
        intros j Hj. destruct (decide (j = i)) as [-> | Hne]; [done |].
        apply Hbelow. lia.
      * exists (i - 1). split; [done |]. split.
        -- by replace (i - 1 + 1) with i by lia.
        -- intros j Hj. apply Hbelow. lia.
    + exists top. split; [done |]. split.
      * intros Hin. apply Htop in Hin. lia.
      * intros j Hj. apply Hbelow. lia.
Qed.

(** X11. [findNextAvailableId] always ends (the loop needs at most as many
    steps as the largest id) and returns a number [r] such that [r + 1],
    the id that the increment of [getNextId] then produces, is not an
    existing id, while every id from 1 to [r] is taken: gaps are filled
    first.  For no ids at all it returns 0. *)
Theorem findNextAvailableId_fresh (fuel : nat) (existingIds : list Z) :
  (forall x, x ∈ existingIds -> x < Z.of_nat fuel) ->
  (0 < fuel)%nat ->
  exists r,
    Sequence.findNextAvailableId fuel existingIds = Some r
    /\ ((r + 1) ∉ existingIds)
    /\ (forall j, 1 <= j <= r -> j ∈ existingIds)
    /\ (existingIds = [] -> r = 0).
Proof.
  intros Hfuel Hpos. unfold Sequence.findNextAvailableId.
  destruct existingIds as [| a ids].
  - exists 0. split; [done |]. split; [apply not_elem_of_nil |].
    split; [intros j Hj; lia | done].
  - set (l := a :: ids) in *.
    pose proof (merge_sort_Permutation Z.le l) as Hperm.
    fold (Sequence.sort_ascending l) in Hperm.
    pose proof (StronglySorted_merge_sort Z.le l) as Hsorted.
    fold (Sequence.sort_ascending l) in Hsorted.
    assert (Hmem : forall x, x ∈ Sequence.sort_ascending l <-> x ∈ l)
      by (intros x; by rewrite Hperm).
    destruct (last (Sequence.sort_ascending l)) as [top |] eqn:Hlast.
    2: { apply last_None in Hlast. rewrite Hlast in Hperm.
         symmetry in Hperm. by apply Permutation_nil_r in Hperm. }
    simpl.
    destruct (find_gap_spec fuel 1 top (Sequence.sort_ascending l))
      as (r & Hr & Hfresh & Hfull).
    + lia.
    + assert (top ∈ l) by (apply Hmem; by apply last_Some_elem_of).
      specialize (Hfuel top H). lia.
    + intros j Hj. lia.
    + intros x Hx. by eapply sorted_last_is_max.
    + exists r. split; [done |]. split; [by rewrite <- Hmem |].
      split; [| done]. intros j Hj. apply Hmem. by apply Hfull.
Qed.

Lemma findNextAvailableId_fresh_witness :
  Sequence.findNextAvailableId 10 [5; 1; 2; 4] = Some 2
  /\ ((2 + 1) ∉ [5; 1; 2; 4])
  /\ exists r, Sequence.findNextAvailableId 10 [5; 1; 2; 4] = Some r
       /\ ((r + 1) ∉ [5; 1; 2; 4]).
Proof.
  split; [vm_compute; reflexivity |].
  destruct (findNextAvailableId_fresh 10 [5; 1; 2; 4]) as (r & Hr & Hfresh & _).
  - intros x Hx. repeat (apply elem_of_cons in Hx as [-> | Hx]; [lia |]).
    by apply elem_of_nil in Hx.
  - lia.
  - assert (Hc : Sequence.findNextAvailableId 10 [5; 1; 2; 4] = Some 2)
      by (vm_compute; reflexivity).
    rewrite Hc in Hr. injection Hr as <-.
    split; [exact Hfresh |]. exists 2. split; [exact Hc | exact Hfresh].
Defined.

(** * Form validation *)

Lemma first_failure_None {V F} (fieldRules : list (Validation.ValidationRule V F))
    value data :
  Validation.first_failure fieldRules value data = None <->
  Forall (fun rule => Validation.validate rule value data = true) fieldRules.
Proof.
  induction fieldRules as [| rule rest IH]; simpl.
  - split; [by constructor | done].
  - destruct (Validation.validate rule value data) eqn:Hv.
    + rewrite IH. split; [by constructor |]. by intros [_ ?]%Forall_cons.
    + split; [done |]. intros [Hr _]%Forall_cons. congruence.
Qed.

Lemma first_failure_Some {V F} (fieldRules : list (Validation.ValidationRule V F))
    value data msg :
  Validation.first_failure fieldRules value data = Some msg <->
  exists passed rule rest,
    fieldRules = passed ++ rule :: rest
    /\ Forall (fun r => Validation.validate r value data = true) passed
    /\ Validation.validate rule value data = false
    /\ msg = Validation.message rule.
Proof.
  induction fieldRules as [| rule rest IH]; simpl.
  - split; [done |]. intros (passed & r & rs & Heq & _). by destruct passed.
  - destruct (Validation.validate rule value data) eqn:Hv.
    + rewrite IH. split.
      * intros (passed & r & rs & -> & Hp & Hr & ->).
        exists (rule :: passed), r, rs. split; [done |].
        split; [by constructor | done].
      * intros (passed & r & rs & Heq & Hp & Hr & ->).
        destruct passed as [| p passed]; simpl in Heq; injection Heq as -> ->.
        -- congruence.
        -- apply Forall_cons in Hp as [_ Hp]. by exists passed, r, rs.
    + split.
      * intros [= <-]. exists [], rule, rest. split; [done |].
        split; [by constructor | done].
      * intros (passed & r & rs & Heq & Hp & Hr & ->).
        destruct passed as [| p passed]; simpl in Heq; injection Heq as -> ->.
        -- done.
        -- apply Forall_cons in Hp as [Hp _]. congruence.
Qed.

Lemma check_fields_absent {V F} (read : F -> string -> V) data
    (l : list (string * list (Validation.ValidationRule V F))) field :
  field ∉ l.*1 ->
  foldr (fun kv errors => Validation.check_field read data kv.1 kv.2 errors) ∅ l
    !! field = None.
Proof.
  induction l as [| [k fr] l IH]; intros Hnot; simpl; [done |].
  apply not_elem_of_cons in Hnot as [Hne Hnot]. simpl in Hne.
  unfold Validation.check_field at 1. simpl.
  destruct (Validation.first_failure fr (read data k) data).
  - rewrite lookup_insert_ne by done. by apply IH.
  - by apply IH.
Qed.

Lemma check_fields_present {V F} (read : F -> string -> V) data
    (l : list (string * list (Validation.ValidationRule V F))) field fr :
  NoDup l.*1 -> (field, fr) ∈ l ->
  foldr (fun kv errors => Validation.check_field read data kv.1 kv.2 errors) ∅ l
    !! field = Validation.first_failure fr (read data field) data.
Proof.
  induction l as [| [k fr'] l IH]; intros Hnd Hin; simpl.
  - by apply elem_of_nil in Hin.
  - simpl in Hnd. apply NoDup_cons in Hnd as [Hk Hnd].
    unfold Validation.check_field at 1. simpl.
    apply elem_of_cons in Hin as [[= <- <-] | Hin].
    + destruct (Validation.first_failure fr (read data field) data).
      * by rewrite lookup_insert_eq.
      * by apply check_fields_absent.
    + assert (k <> field).
      { intros ->. apply Hk. apply list_elem_of_fmap. by exists (field, fr). }
      destruct (Validation.first_failure fr' (read data k) data).
      * rewrite lookup_insert_ne by done. by apply IH.
      * by apply IH.
Qed.

Lemma validateForm_lookup {V F} (read : F -> string -> V) data
    (rules : gmap string (list (Validation.ValidationRule V F))) field :
  Validation.validateForm read data rules !! field =
    match rules !! field with
    | Some fieldRules => Validation.first_failure fieldRules (read data field) data
    | None => None
    end.
Proof.
  unfold Validation.validateForm. destruct (rules !! field) as [fr |] eqn:E.
  - apply check_fields_present; [apply NoDup_fst_map_to_list |].
    by apply elem_of_map_to_list.
  - apply check_fields_absent. intros Hin.
    apply list_elem_of_fmap in Hin as ([k fr] & -> & Hin).
    apply elem_of_map_to_list in Hin. simpl in E. congruence.
Qed.

(** X12. [validateForm] reports, for each field that has rules, the
    message of the first rule in the field's list that rejects the field's
    value, provided every rule before it accepted the value; rules after
    the first failure play no part.  A field with no rules, or whose rules
    all accept, has no entry in the result. *)
Theorem validateForm_first_failure {V F} (read : F -> string -> V) data
    (rules : gmap string (list (Validation.ValidationRule V F))) field :
  (forall msg,
     Validation.validateForm read data rules !! field = Some msg <->
     exists passed rule rest,
       rules !! field = Some (passed ++ rule :: rest)
       /\ Forall (fun r => Validation.validate r (read data field) data = true) passed
       /\ Validation.validate rule (read data field) data = false
       /\ msg = Validation.message rule)
  /\ (Validation.validateForm read data rules !! field = None <->
      forall fieldRules, rules !! field = Some fieldRules ->
        Forall (fun r => Validation.validate r (read data field) data = true)
               fieldRules).
Proof.
  rewrite validateForm_lookup. split.
  - intros msg. destruct (rules !! field) as [fr |].
    + rewrite first_failure_Some. split.
      * intros (passed & rule & rest & -> & H). by exists passed, rule, rest.
      * intros (passed & rule & rest & [= ->] & H). by exists passed, rule, rest.
    + split; [done |]. by intros (? & ? & ? & ? & _).
  - destruct (rules !! field) as [fr |].
    + rewrite first_failure_None. split.
      * by intros H fr' [= <-].
      * intros H. by apply H.
    + split; [| done]. by intros _ fr' ?.
Qed.

(** X13. [hasErrors(validateForm(data, rules))] is [false] exactly when
    every rule of every field accepts that field's value. *)
Theorem validateForm_no_errors {V F} (read : F -> string -> V) data
    (rules : gmap string (list (Validation.ValidationRule V F))) :
  Validation.hasErrors (Validation.validateForm read data rules) = false <->
  forall field fieldRules rule,
    rules !! field = Some fieldRules -> rule ∈ fieldRules ->
    Validation.validate rule (read data field) data = true.
Proof.
  unfold Validation.hasErrors.
  rewrite Nat.ltb_ge, Nat.le_0_r, length_zero_iff_nil, map_to_list_empty_iff.
  rewrite map_empty. split.
  - intros Hnone field fr rule Hf Hin.
    specialize (Hnone field). rewrite validateForm_lookup, Hf in Hnone.
    apply first_failure_None in Hnone. rewrite Forall_forall in Hnone.
    by apply Hnone.
  - intros Hall field. rewrite validateForm_lookup.
    destruct (rules !! field) as [fr |] eqn:Hf; [| done].
    apply first_failure_None, Forall_forall. intros rule Hin.
    by eapply Hall.
Qed.






(** X15. [getNextId] is not atomic: it reads the file, and writes it back
    only after an [await].  Run without interruption the two steps make up
    [getNextId]; but when two calls for the same sequence both read before
    either writes, both return the same id and the counter advances only
    by one; and when the two calls are for different sequences, the second
    write puts the first sequence's counter back, so the next call for it
    returns the id the first call already handed out. *)
Theorem getNextId_race file :
  (forall name,
     let (c1, f1) := Sequence.read_step (Sequence.Called name) file in
     let (d1, f2) := Sequence.write_step c1 f1 in
     d1 = Sequence.Done name (Sequence.getNextId name file).2
     /\ f2 = Some (Sequence.getNextId name file).1)
  /\ (forall name,
        let (c1, f1) := Sequence.read_step (Sequence.Called name) file in
        let (c2, f2) := Sequence.read_step (Sequence.Called name) f1 in
        let (d1, f3) := Sequence.write_step c1 f2 in
        let (d2, f4) := Sequence.write_step c2 f3 in
        exists id,
          d1 = Sequence.Done name id /\ d2 = Sequence.Done name id
          /\ id = default 0 (Sequence.initializeSequences file !! name) + 1
          /\ default 0 (Sequence.initializeSequences f4 !! name) = id)
  /\ (forall name1 name2, name1 <> name2 ->
        let (c1, f1) := Sequence.read_step (Sequence.Called name1) file in
        let (c2, f2) := Sequence.read_step (Sequence.Called name2) f1 in
        let (d1, f3) := Sequence.write_step c1 f2 in
        let (d2, f4) := Sequence.write_step c2 f3 in
        exists id,
          d1 = Sequence.Done name1 id
          /\ (Sequence.getNextId name1 f4).2 = id).
Proof.
  split; [| split].
  - intros name. simpl. done.
  - intros name. simpl. eexists. split; [done |].
    unfold Sequence.increment. rewrite !lookup_insert_eq. simpl. done.
  - intros name1 name2 Hne. simpl. eexists. split; [done |].
    unfold Sequence.increment.
    rewrite !lookup_insert_eq, lookup_insert_ne by done. done.
Qed.
